(** * MIDAS / phylo_cnv: read classification and species abundance

    A shallow embedding of [src/phylo_cnv/species.py]: the alignment record
    reader, the best-hit resolver, the unique/ambiguous classifier, the
    probabilistic reassignment of ambiguous reads and the abundance
    normaliser, followed by the properties established about them.

    Conventions of the embedding.
    - A Python [dict] is a [gmap]; a file is the list of its lines.
    - A Python exception is a [Raise e] result; [OK x] is a normal return.
    - A Python float is a rational number ([Q]): arithmetic and comparisons
      are exact, and the non-finite floats have no counterpart.  The
      conversions [float(s)] and [str(x)] are Python built-ins; they are
      parameters of the development.
    - The per-cluster lists of [unique_alns] are mutable objects that two
      dicts refer to; they live in an explicit store of list objects. *)

From Stdlib Require Import Ascii ZArith QArith Qabs Qround Qfield Lqa.
From stdpp Require Import base option strings pretty list sorting gmap fin_maps.

Local Open Scope Z_scope.
Local Open Scope stdpp_scope.

(** ** Exceptions and results *)

Inductive exn : Set :=
  | ValueError
  | KeyError
  | IndexError
  | ZeroDivisionError.

Inductive result (A : Type) : Type :=
  | OK (a : A)
  | Raise (e : exn).
Arguments OK {A} a.
Arguments Raise {A} e.

#[global] Instance result_ret : MRet result := @OK.
#[global] Instance result_bind : MBind result := λ A B f m,
  match m with
  | OK a => f a
  | Raise e => Raise e
  end.
#[global] Instance result_fmap : FMap result := λ A B f m,
  match m with
  | OK a => OK (f a)
  | Raise e => Raise e
  end.

(** [d[k]] on a dict or a record: a missing key raises [KeyError]. *)
Definition getitem {A} (o : option A) : result A :=
  match o with
  | Some a => OK a
  | None => Raise KeyError
  end.

(** [l[i]] on a list: an index out of range raises [IndexError]. *)
Definition index {A} (l : list A) (i : nat) : result A :=
  match l !! i with
  | Some a => OK a
  | None => Raise IndexError
  end.

(** ** Strings *)

(** [s.rstrip()]: trailing whitespace removed. *)
Fixpoint rstrip (s : string) : string :=
  match s with
  | EmptyString => EmptyString
  | String c s' =>
      match rstrip s' with
      | EmptyString => if Ascii.is_space c then EmptyString else String c EmptyString
      | r => String c r
      end
  end.

(** [s.split()]: the maximal runs of non-whitespace characters. *)
Definition split (s : string) : list string := String.words s.

(** [s.split(sep)] for a one-character separator: never empty. *)
Fixpoint split_on (sep : ascii) (s : string) : list string :=
  match s with
  | EmptyString => [EmptyString]
  | String c s' =>
      if decide (c = sep) then EmptyString :: split_on sep s'
      else match split_on sep s' with
           | w :: ws => String c w :: ws
           | [] => [String c EmptyString]
           end
  end.

(** [l[0]] and [l[-1]] of the result of [split_on], which has both. *)
Definition first (l : list string) : string := hd EmptyString l.
Definition final (l : list string) : string := List.last l EmptyString.

Fixpoint digits (s : string) (acc : Z) : option Z :=
  match s with
  | EmptyString => Some acc
  | String c s' =>
      match Ascii.is_nat c with
      | Some d => digits s' (10 * acc + Z.of_nat d)
      | None => None
      end
  end.

(** [int(s)] on a token without whitespace: an optional sign and at least
    one decimal digit; anything else raises [ValueError]. *)
Definition int (s : string) : result Z :=
  let unsigned (t : string) : option Z :=
    match t with
    | EmptyString => None
    | _ => digits t 0
    end in
  let parsed :=
    match s with
    | String "-"%char t => Z.opp <$> unsigned t
    | String "+"%char t => unsigned t
    | _ => unsigned s
    end in
  match parsed with
  | Some z => OK z
  | None => Raise ValueError
  end.

(** [str(s)] on a string is the identity. *)
Definition str (s : string) : result string := OK s.

(** A decimal reader used to instantiate [float] on concrete inputs:
    an optional sign, digits, and an optional fraction. *)
Fixpoint decimal_fraction (s : string) (num : Z) (den : positive) : option Q :=
  match s with
  | EmptyString => Some (num # den)
  | String c s' =>
      match Ascii.is_nat c with
      | Some d => decimal_fraction s' (10 * num + Z.of_nat d) (10 * den)
      | None => None
      end
  end.

Fixpoint decimal_digits (s : string) (num : Z) : option Q :=
  match s with
  | EmptyString => Some (num # 1)
  | String "."%char s' => decimal_fraction s' num 1
  | String c s' =>
      match Ascii.is_nat c with
      | Some d => decimal_digits s' (10 * num + Z.of_nat d)
      | None => None
      end
  end.

Definition decimal_float (s : string) : option Q :=
  match s with
  | EmptyString => None
  | String "-"%char t => Qopp <$> decimal_digits t 0
  | _ => decimal_digits s 0
  end.

(** A printer used to instantiate [str] on concrete inputs; only its being
    a function of the value matters. *)
Definition ratio_str (x : Q) : string :=
  match Qred x with
  | Qmake n d => pretty n +:+ "/" +:+ pretty (Zpos d)
  end.

(** Python 2's [str(x)] on a finite float, which is ['%.12g' % x]: twelve
    significant digits, rounded to even, without the zeros at the end; an
    exponent below [-4] or from [12] on gives the exponent form, and a text
    without a point and without an exponent gets [.0]. *)
Fixpoint shift_down (fuel : nat) (x : Q) (e : Z) : Z :=
  match fuel with
  | O => e
  | S fuel => if Qle_bool 10 x then shift_down fuel (Qred (x / 10)) (e + 1) else e
  end.

Fixpoint shift_up (fuel : nat) (x : Q) (e : Z) : Z :=
  match fuel with
  | O => e
  | S fuel => if Qle_bool 1 x then e else shift_up fuel (Qred (x * 10)) (e - 1)
  end.

(** The decimal exponent of [0 < x], within the range of the floats. *)
Definition exponent10 (x : Q) : Z :=
  if Qle_bool 1 x then shift_down 400 x 0 else shift_up 400 x 0.

Definition round_half_even (x : Q) : Z :=
  let f := Qfloor x in
  match (x - inject_Z f ?= 1 # 2)%Q with
  | Lt => f
  | Gt => f + 1
  | Eq => if Z.even f then f else f + 1
  end.

Fixpoint rstrip_zeros (s : string) : string :=
  match s with
  | EmptyString => EmptyString
  | String c s' =>
      match rstrip_zeros s' with
      | EmptyString => if Ascii.eqb c "0" then EmptyString else String c EmptyString
      | t => String c t
      end
  end.

Fixpoint zeros (n : nat) : string :=
  match n with
  | O => EmptyString
  | S n => String "0" (zeros n)
  end.

Definition float_str (x : Q) : string :=
  if Qeq_bool x 0 then "0.0"
  else
    let a := Qabs x in
    let e := exponent10 a in
    let m := round_half_even (a * Qpower 10 (11 - e)) in
    let '(m, e) := if 10 ^ 12 <=? m then (m / 10, e + 1) else (m, e) in
    let ds := pretty m in
    let sign := if Qle_bool 0 x then EmptyString else "-" in
    let body :=
      if (e <? -4) || (12 <=? e) then
        let frac := rstrip_zeros (String.substring 1 11 ds) in
        String.substring 0 1 ds +:+
        match frac with EmptyString => frac | _ => "." +:+ frac end +:+
        "e" +:+ (if e <? 0 then "-" else "+") +:+
        (if Z.abs e <? 10 then "0" else EmptyString) +:+ pretty (Z.abs e)
      else if 0 <=? e then
        let k := Z.to_nat (e + 1) in
        let frac := rstrip_zeros (String.substring k (12 - k) ds) in
        String.substring 0 k ds +:+ "." +:+
        match frac with EmptyString => "0" | _ => frac end
      else "0." +:+ zeros (Z.to_nat (- e - 1)) +:+ rstrip_zeros ds in
    sign +:+ body.

(** ** Rational comparisons *)

Definition Qltb (x y : Q) : bool := negb (Qle_bool y x).
Definition Qsum (l : list Q) : Q := foldr Qplus 0%Q l.

(** ** Alignment records *)

(** One record yielded by [parse_blast]: a dict whose keys are taken from
    [fields], each value of its column's type.  A key that the dict lacks is
    [None]; reading it raises [KeyError]. *)
Record alignment : Type := Alignment {
  query : option string;
  target : option string;
  pid : option Q;
  aln : option Z;
  mis : option Q;
  gaps : option Q;
  qstart : option Q;
  qend : option Q;
  tstart : option Q;
  tend : option Q;
  evalue : option Q;
  score : option Q
}.

Inductive format : Set := Fstr | Fint | Ffloat.

Definition formats : list format :=
  [Fstr; Fstr; Ffloat; Fint; Ffloat; Ffloat; Ffloat; Ffloat; Ffloat; Ffloat; Ffloat; Ffloat].
Definition fields : list string :=
  ["query"; "target"; "pid"; "aln"; "mis"; "gaps"; "qstart"; "qend"; "tstart"; "tend";
   "evalue"; "score"].

Definition key {A} (field : string) (o : option A) : list string :=
  match o with
  | Some _ => [field]
  | None => []
  end.

(** The keys of a record, in the order of [fields]. *)
Definition keys (a : alignment) : list string :=
  key "query" (query a) ++ key "target" (target a) ++ key "pid" (pid a) ++
  key "aln" (aln a) ++ key "mis" (mis a) ++ key "gaps" (gaps a) ++
  key "qstart" (qstart a) ++ key "qend" (qend a) ++ key "tstart" (tstart a) ++
  key "tend" (tend a) ++ key "evalue" (evalue a) ++ key "score" (score a).

(** The store of list objects: a reference is a position in the store. *)
Abbreviation ref := nat (only parsing).
Abbreviation store := (list (list alignment)).

(** [[]]: a new, empty list object. *)
Definition alloc (h : store) : ref * store := (length h, h ++ [[]]).

(** [l.append(a)] on the list object at [l].  A reference taken from a
    dict of the program is always in the store; the second branch is there
    to make the function total. *)
Definition append (h : store) (l : ref) (a : alignment) : result store :=
  match h !! l with
  | Some xs => OK (<[l := xs ++ [a]]> h)
  | None => Raise KeyError
  end.

(** The random sources: Python's [random] and [numpy.random], each an
    unbounded sequence of uniform draws from [0, 1) and a position in it. *)
Record draw : Set := Draw { dnum : nat; dden : nat }.

Definition uniform (d : draw) : Q :=
  Z.of_nat (dnum d mod S (dden d)) # Pos.of_succ_nat (dden d).

Record generator : Type := Generator { tape : nat → draw; pos : nat }.

Definition random (g : generator) : Q * generator :=
  (uniform (tape g (pos g)), {| tape := tape g; pos := S (pos g) |}).

Record rng : Type := Rng { py_random : generator; np_random : generator }.

(** ** Outcomes of the functions that can also stop the program *)

(** What ends a call besides the exceptions of the classification pass:
    [next] on an exhausted file, [set.intersection] without an argument, a
    global name that is not bound, and [sys.exit] with its message. *)
Inductive failure : Type :=
  | Exception (e : exn)
  | StopIteration
  | TypeError
  | NameError
  | SystemExit (message : string).

Inductive outcome (A : Type) : Type :=
  | Returns (a : A)
  | Fails (f : failure).
Arguments Returns {A} a.
Arguments Fails {A} f.

#[global] Instance outcome_ret : MRet outcome := @Returns.
#[global] Instance outcome_bind : MBind outcome := λ A B f m,
  match m with
  | Returns a => f a
  | Fails e => Fails e
  end.

Definition lift {A} (m : result A) : outcome A :=
  match m with
  | OK a => Returns a
  | Raise e => Fails (Exception e)
  end.

Section Species.

#[local] Set Default Proof Using "Type".

(** [float(s)] restricted to the finite floats ([None]: [ValueError]), and
    [str(x)] on a float. *)
Variable float_of_string : string → option Q.
Variable str_of_float : Q → string.

Definition float (s : string) : result Q :=
  match float_of_string s with
  | Some x => OK x
  | None => Raise ValueError
  end.

Definition accepts (fmt : format) (value : string) : Prop :=
  match fmt with
  | Fstr => True
  | Fint => ∃ z, int value = OK z
  | Ffloat => ∃ x, float value = OK x
  end.

(** ** [parse_blast] *)

(** The converted value of column [i]: [zip] stops at the shortest of its
    arguments, so a column that the line lacks gives no key, and the values
    after the twelfth are not looked at. *)
Definition column {A} (fmt : string → result A) (values : list string) (i : nat)
  : result (option A) :=
  match values !! i with
  | Some value => Some <$> fmt value
  | None => OK None
  end.

Definition parse_line (line : string) : result alignment :=
  let values := split (rstrip line) in
  v0 ← column str values 0;
  v1 ← column str values 1;
  v2 ← column float values 2;
  v3 ← column int values 3;
  v4 ← column float values 4;
  v5 ← column float values 5;
  v6 ← column float values 6;
  v7 ← column float values 7;
  v8 ← column float values 8;
  v9 ← column float values 9;
  v10 ← column float values 10;
  v11 ← column float values 11;
  OK (Alignment v0 v1 v2 v3 v4 v5 v6 v7 v8 v9 v10 v11).

(** The generator run to its end: the records of all lines, or the
    exception of the first line that raises. *)
Definition parse_blast (lines : list string) : result (list alignment) :=
  mapM parse_line lines.

(** ** [get_markers] *)

Fixpoint get_markers_loop (lines : list string) (marker_cutoffs : gmap string Q)
  : result (gmap string Q) :=
  match lines with
  | [] => OK marker_cutoffs
  | line :: lines =>
      match split (rstrip line) with
      | [marker_id; min_pid] =>
          x ← float min_pid;
          get_markers_loop lines (<[marker_id := x]> marker_cutoffs)
      | _ => Raise ValueError
      end
  end.

Definition get_markers (lines : list string) : result (gmap string Q) :=
  get_markers_loop lines ∅.

(** ** [query_coverage] and [find_best_hits] *)

Definition query_coverage (a : alignment) : result Q :=
  n ← getitem (aln a);
  q ← getitem (query a);
  len ← int (final (split_on "_" q));
  if decide (len = 0) then Raise ZeroDivisionError
  else OK (inject_Z n / inject_Z len)%Q.

(** The body of the loop of [find_best_hits] for one record. *)
Definition best_hit (marker_cutoffs : gmap string Q)
    (best_hits : gmap string (list alignment)) (a : alignment)
  : result (gmap string (list alignment)) :=
  t ← getitem (target a);
  let marker_id := final (split_on "_" t) in
  p ← getitem (pid a);
  cutoff ← getitem (marker_cutoffs !! marker_id);
  if Qltb p cutoff then OK best_hits
  else
    cov ← query_coverage a;
    if Qltb cov (3 # 4) then OK best_hits
    else
      q ← getitem (query a);
      match best_hits !! q with
      | None => OK (<[q := [a]]> best_hits)
      | Some hits =>
          top ← index hits 0;
          s0 ← getitem (score top);
          s ← getitem (score a);
          if Qeq_bool s0 s then OK (<[q := hits ++ [a]]> best_hits)
          else if Qltb s0 s then OK (<[q := [a]]> best_hits)
          else OK best_hits
      end.

(** The loop over the generator: a line is parsed when the loop reaches it. *)
Fixpoint find_best_hits_loop (marker_cutoffs : gmap string Q) (lines : list string)
    (best_hits : gmap string (list alignment))
  : result (gmap string (list alignment)) :=
  match lines with
  | [] => OK best_hits
  | line :: lines =>
      a ← parse_line line;
      best_hits ← best_hit marker_cutoffs best_hits a;
      find_best_hits_loop marker_cutoffs lines best_hits
  end.

(** [d.values()] *)
Definition values {A} (d : gmap string A) : list A := (map_to_list d).*2.

Definition find_best_hits (marker_cutoffs_file blastout : list string)
  : result (list (list alignment)) :=
  marker_cutoffs ← get_markers marker_cutoffs_file;
  best_hits ← find_best_hits_loop marker_cutoffs blastout ∅;
  OK (values best_hits).

(** ** [assign_unique] *)

(** [dict([(x.rstrip().split()[0], []) for x in lines])]: one new list
    object per line; a repeated key keeps the list of its last line. *)
Fixpoint cluster_lists (lines : list string) (d : gmap string ref) (h : store)
  : result (gmap string ref * store) :=
  match lines with
  | [] => OK (d, h)
  | x :: lines =>
      cluster_id ← index (split (rstrip x)) 0;
      let '(l, h) := alloc h in
      cluster_lists lines (<[cluster_id := l]> d) h
  end.

Definition cluster_of (a : alignment) : result string :=
  t ← getitem (target a);
  OK (first (split_on "_" t)).

Fixpoint assign_unique_loop (alns : list (list alignment)) (unique_alns : gmap string ref)
    (h : store) : result store :=
  match alns with
  | [] => OK h
  | aln :: alns =>
      if decide (length aln = 1%nat) then
        a ← index aln 0;
        cluster_id ← cluster_of a;
        l ← getitem (unique_alns !! cluster_id);
        h ← append h l a;
        assign_unique_loop alns unique_alns h
      else assign_unique_loop alns unique_alns h
  end.

(** The counters [unique] and [non_unique] are only printed. *)
Definition assign_unique (cluster_ids : list string) (alns : list (list alignment))
    (h : store) : result (gmap string ref * store) :=
  '(unique_alns, h) ← cluster_lists cluster_ids ∅ h;
  h ← assign_unique_loop alns unique_alns h;
  OK (unique_alns, h).

(** ** [assign_non_unique] *)

(** [d.copy()]: a new dict with the same keys and the same references. *)
Definition copy (d : gmap string ref) : gmap string ref := d.

(** [len(d[x])] *)
Definition len_at (d : gmap string ref) (h : store) (x : string) : result nat :=
  l ← getitem (d !! x);
  xs ← getitem (h !! l);
  OK (length xs).

(** [random.sample(population, 1)[0]]: the element at [int(random() * n)]. *)
Definition sample (population : list string) (g : generator)
  : result (string * generator) :=
  let '(u, g) := random g in
  let j := Z.to_nat (Qfloor (u * inject_Z (Z.of_nat (length population)))) in
  c ← index population j;
  OK (c, g).

Fixpoint cumsum (acc : Q) (p : list Q) : list Q :=
  match p with
  | [] => []
  | x :: p => (acc + x)%Q :: cumsum (acc + x)%Q p
  end.

(** [cdf.searchsorted(u, side='right')] on an increasing [cdf]: the first
    position whose entry exceeds [u]. *)
Fixpoint searchsorted (cdf : list Q) (u : Q) : nat :=
  match cdf with
  | [] => 0%nat
  | c :: cdf => if Qle_bool c u then S (searchsorted cdf u) else 0%nat
  end.

(** [numpy.random.choice(a, 1, p=p)[0]]: the cumulative sums of [p], divided
    by their last, are searched for one uniform draw. *)
Definition choice (a : list string) (p : list Q) (g : generator)
  : result (string * generator) :=
  let cdf := cumsum 0 p in
  let cdf := (λ c, c / List.last cdf 0)%Q <$> cdf in
  let '(u, g) := random g in
  c ← index a (searchsorted cdf u);
  OK (c, g).

(** [l.index(x)]: the first position of [x]; [ValueError] when absent. *)
Definition list_index (l : list string) (x : string) : result nat :=
  match list_find (λ y, y = x) l with
  | Some (i, _) => OK i
  | None => Raise ValueError
  end.

Definition weights (unique_alns : gmap string ref) (h : store) (clusters : list string)
  : result (list nat) :=
  mapM (len_at unique_alns h) clusters.

(** [[float(count)/sum(counts) for count in counts]] *)
Definition probabilities (counts : list nat) : list Q :=
  (λ count, inject_Z (Z.of_nat count) / inject_Z (Z.of_nat (sum_list counts)))%Q <$> counts.

(** The choice of a cluster for one ambiguous group. *)
Definition choose (unique_alns : gmap string ref) (h : store) (clusters : list string)
    (r : rng) : result (string * rng) :=
  counts ← weights unique_alns h clusters;
  if decide (sum_list counts = 0%nat) then
    '(cluster_id, g) ← sample clusters (py_random r);
    OK (cluster_id, {| py_random := g; np_random := np_random r |})
  else
    let probs := probabilities counts in
    '(cluster_id, g) ← choice clusters probs (np_random r);
    OK (cluster_id, {| py_random := py_random r; np_random := g |}).

(** The body of the loop of [assign_non_unique] for a group with [len > 1]. *)
Definition reassign (unique_alns total_alns : gmap string ref) (aln : list alignment)
    (st : store * rng) : result (store * rng) :=
  clusters ← mapM cluster_of aln;
  '(cluster_id, r) ← choose unique_alns st.1 clusters st.2;
  l ← getitem (total_alns !! cluster_id);
  i ← list_index clusters cluster_id;
  a ← index aln i;
  h ← append st.1 l a;
  OK (h, r).

Fixpoint assign_non_unique_loop (unique_alns total_alns : gmap string ref)
    (alns : list (list alignment)) (st : store * rng) : result (store * rng) :=
  match alns with
  | [] => OK st
  | aln :: alns =>
      if decide (1 < length aln)%nat then
        st ← reassign unique_alns total_alns aln st;
        assign_non_unique_loop unique_alns total_alns alns st
      else assign_non_unique_loop unique_alns total_alns alns st
  end.

Definition assign_non_unique (alns : list (list alignment)) (unique_alns : gmap string ref)
    (st : store * rng) : result (gmap string ref * (store * rng)) :=
  let total_alns := copy unique_alns in
  st ← assign_non_unique_loop unique_alns total_alns alns st;
  OK (total_alns, st).

(** What a dict of references holds, read through the store. *)
Definition contents (h : store) (d : gmap string ref) : gmap string (list alignment) :=
  omap (λ l, h !! l) d.

(** ** [read_gene_lengths] *)

Fixpoint cluster_zeros (lines : list string) (d : gmap string Z) : result (gmap string Z) :=
  match lines with
  | [] => OK d
  | x :: lines =>
      cluster_id ← index (split (rstrip x)) 0;
      cluster_zeros lines (<[cluster_id := 0]> d)
  end.

Fixpoint gene_lengths_loop (lines : list string) (total_gene_length : gmap string Z)
  : result (gmap string Z) :=
  match lines with
  | [] => OK total_gene_length
  | line :: lines =>
      gene ← index (split line) 0;
      let cluster_id := first (split_on "_" gene) in
      field ← index (split (rstrip line)) 1;
      gene_length ← int field;
      total ← getitem (total_gene_length !! cluster_id);
      gene_lengths_loop lines (<[cluster_id := total + gene_length]> total_gene_length)
  end.

Definition read_gene_lengths (cluster_ids gene_length : list string)
  : result (gmap string Z) :=
  total_gene_length ← cluster_zeros cluster_ids ∅;
  gene_lengths_loop gene_length total_gene_length.

(** ** [normalize_counts] *)

Definition sum_Z (l : list Z) : Z := foldr Z.add 0 l.

(** The coverage of one cluster: the first half of the body of the loop. *)
Definition coverage (total_gene_length : gmap string Z) (cluster_id : string)
    (alns : list alignment) : result Q :=
  if decide (0 < length alns)%nat then
    lens ← mapM (λ a, getitem (aln a)) alns;
    let bp := sum_Z lens in
    len ← getitem (total_gene_length !! cluster_id);
    if decide (len = 0) then Raise ZeroDivisionError
    else OK (inject_Z bp / inject_Z len)%Q
  else OK 0%Q.

Fixpoint coverage_loop (total_gene_length : gmap string Z)
    (items : list (string * list alignment)) (cluster_abundance : gmap string Q)
  : result (gmap string Q) :=
  match items with
  | [] => OK cluster_abundance
  | (cluster_id, alns) :: items =>
      cov ← coverage total_gene_length cluster_id alns;
      coverage_loop total_gene_length items (<[cluster_id := cov]> cluster_abundance)
  end.

(** The value of a cluster in [cluster_abundance]: the dict with the keys
    ['cov'] and ['rel_abun']. *)
Record abundance : Set := Abundance { cov : Q; rel_abun : Q }.

Definition normalize_counts (cluster_alns : gmap string (list alignment))
    (total_gene_length : gmap string Z) : result (gmap string abundance) :=
  covs ← coverage_loop total_gene_length (map_to_list cluster_alns) ∅;
  let total_cov := Qsum (values covs) in
  OK ((λ c, {| cov := c;
               rel_abun := if Qltb 0 total_cov then (c / total_cov)%Q else 0%Q |})
        <$> covs).

(** The optional conversion to cellular relative abundances, from the
    sampled base count [bp] and the average genome size [ags]. *)
Definition rescale (bp : Z) (ags : Q) (cluster_abundance : gmap string abundance)
  : result (gmap string abundance) :=
  if Qeq_bool ags 0 then Raise ZeroDivisionError
  else
    let genomes := (inject_Z bp / ags)%Q in
    if decide (cluster_abundance = ∅) then OK cluster_abundance
    else if Qeq_bool genomes 0 then Raise ZeroDivisionError
    else OK ((λ v, {| cov := cov v; rel_abun := (cov v / genomes)%Q |})
               <$> cluster_abundance).

(** ** [write_abundance] *)

Definition newline : string := String (ascii_of_nat 10) EmptyString.
Definition tab : string := String (ascii_of_nat 9) EmptyString.

(** [sep.join(l)] *)
Fixpoint join (sep : string) (l : list string) : string :=
  match l with
  | [] => EmptyString
  | [x] => x
  | x :: l => x +:+ sep +:+ join sep l
  end.

Definition header : string :=
  join tab ["cluster_id"; "coverage"; "relative_abundance"] +:+ newline.

Definition row (item : string * abundance) : string :=
  let record := [item.1; str_of_float (cov item.2); str_of_float (rel_abun item.2)] in
  join tab record +:+ newline.

(** The lines written to the output file. *)
Definition write_abundance (cluster_abundance : gmap string abundance) : list string :=
  header :: (row <$> map_to_list cluster_abundance).

(** ** [estimate_abundance] *)

(** The pipeline after the aligner has run, on the contents of the files it
    reads; [norm] carries [(bp, ags)] when [args['norm']] is set. *)
Definition estimate_abundance (marker_cutoffs_file blastout cluster_ids gene_length
    : list string) (norm : option (Z * Q)) (r : rng) : result (list string) :=
  best_hits ← find_best_hits marker_cutoffs_file blastout;
  '(unique_alns, h) ← assign_unique cluster_ids best_hits [];
  '(cluster_alns, st) ← assign_non_unique best_hits unique_alns (h, r);
  total_gene_length ← read_gene_lengths cluster_ids gene_length;
  cluster_abundance ← normalize_counts (contents st.1 cluster_alns) total_gene_length;
  cluster_abundance ←
    match norm with
    | Some (bp, ags) => rescale bp ags cluster_abundance
    | None => OK cluster_abundance
    end;
  OK (write_abundance cluster_abundance).

(** ** [estimate_mix_props] *)

Fixpoint unique_counts_loop (alns : list (list alignment)) (unique_counts : gmap string Z)
  : result (gmap string Z) :=
  match alns with
  | [] => OK unique_counts
  | aln :: alns =>
      if decide (length aln = 1%nat) then
        a ← index aln 0;
        cluster_id ← cluster_of a;
        n ← getitem (unique_counts !! cluster_id);
        unique_counts_loop alns (<[cluster_id := n + 1]> unique_counts)
      else unique_counts_loop alns unique_counts
  end.

(** The function reads [args], which is not one of its parameters: the name
    is looked up among the globals of the module when the loop is over.
    [args] is that global: [None] when no such name is bound, and otherwise
    its ['verbose'] entry, if it has one. *)
Definition estimate_mix_props (args : option (option bool)) (cluster_ids : list string)
    (alns : list (list alignment)) : outcome (gmap string Z) :=
  unique_counts ← lift (cluster_zeros cluster_ids ∅);
  unique_counts ← lift (unique_counts_loop alns unique_counts);
  match args with
  | None => Fails NameError
  | Some None => Fails (Exception KeyError)
  | Some (Some verbose) => Returns unique_counts
  end.

(** ** [read_abundance] *)

(** The value of a cluster in the dict that [read_abundance] returns: the
    keys ['cov'] and ['rel_abun'], each present when its column is. *)
Record profile : Type := Profile {
  profile_cov : option Q;
  profile_rel_abun : option Q
}.

Fixpoint read_abundance_loop (lines : list string) (dict : gmap string profile)
  : result (gmap string profile) :=
  match lines with
  | [] => OK dict
  | line :: lines =>
      let values := split (rstrip line) in
      cluster_id ← index values 0;
      c ← column float values 1;
      r ← column float values 2;
      read_abundance_loop lines (<[cluster_id := Profile c r]> dict)
  end.

(** [file] is what is at [inpath]: [None] when it is not a file, and
    otherwise its lines. *)
Definition read_abundance (inpath : string) (file : option (list string))
  : outcome (gmap string profile) :=
  match file with
  | None =>
      Fails (SystemExit ("Could not locate species profile: " +:+ inpath +:+ newline +:+
                         "Try rerunning with --species_profile"))
  | Some [] => Fails StopIteration
  | Some (_ :: lines) => lift (read_abundance_loop lines ∅)
  end.

(** ** [select_genome_clusters] *)

(** The entries of [args] that the function reads.  An option that was not
    given is [None]; [gc_id] is a list of cluster identifiers. *)
Record selection : Type := Selection {
  gc_topn : option Z;
  gc_cov : option Q;
  gc_rbun : option Q;
  gc_id : option (list string);
  profile_path : string
}.

(** The truth value of an option in [if args[...]]: [None], zero and the
    empty list are false. *)
Definition given_int (o : option Z) : bool :=
  match o with
  | Some n => negb (n =? 0)
  | None => false
  end.
Definition given_float (o : option Q) : bool :=
  match o with
  | Some x => negb (Qeq_bool x 0)
  | None => false
  end.
Definition given_list (o : option (list string)) : bool :=
  match o with
  | Some (_ :: _) => true
  | _ => false
  end.

(** The clusters whose value under one key is at least the threshold. *)
Fixpoint at_least (get : profile → option Q) (threshold : Q)
    (items : list (string * profile)) (selected : gset string) : result (gset string) :=
  match items with
  | [] => OK selected
  | (cluster_id, values) :: items =>
      x ← getitem (get values);
      if Qle_bool threshold x then at_least get threshold items ({[cluster_id]} ∪ selected)
      else at_least get threshold items selected
  end.

(** [sorted(l, key=operator.itemgetter(1), reverse=True)]: decreasing, and
    pairs of equal value keep the order they had. *)
Fixpoint insert_sorted (x : string * Q) (l : list (string * Q)) : list (string * Q) :=
  match l with
  | [] => [x]
  | y :: l' => if Qle_bool y.2 x.2 then x :: l else y :: insert_sorted x l'
  end.
Definition sorted (l : list (string * Q)) : list (string * Q) := foldr insert_sorted [] l.

(** [l[0:n]]: a negative [n] counts from the end. *)
Definition slice {A} (l : list A) (n : Z) : list A :=
  if decide (0 ≤ n) then take (Z.to_nat n) l
  else take (length l - Z.to_nat (- n)) l.

Definition top_clusters (n : Z) (items : list (string * profile)) : result (gset string) :=
  cluster_abundance ← mapM (λ item, r ← getitem (profile_rel_abun item.2); OK (item.1, r)) items;
  let sorted_abundance := sorted cluster_abundance in
  OK (list_to_set (slice sorted_abundance n).*1).

(** [set.intersection] applied to the values of [cluster_sets], which has
    at most the keys ['gc_cov'], ['gc_rbun'] and ['gc_topn']. *)
Definition set_intersection (cluster_sets : list (option (gset string))) : outcome (gset string) :=
  match omap id cluster_sets with
  | [] => Fails TypeError
  | s :: sets => Returns (foldr (∩) s sets)
  end.

(** [l.remove(x)] inside [try: ... except: pass]. *)
Fixpoint remove_first (x : string) (l : list string) : list string :=
  match l with
  | [] => []
  | y :: l' => if decide (y = x) then l' else y :: remove_first x l'
  end.

Definition not_found (cluster_id : string) : string :=
  newline +:+ "Error: the specified genome_cluster '" +:+ cluster_id +:+
  "' was not found in the reference database (-D)" +:+ newline.
Definition none_selected : string :=
  newline +:+ "Error: no genome-clusters sastisfied your selection criteria. " +:+ newline.

(** [profile] is what is at [args['profile']], [db] the names that
    [os.listdir(args['db'])] returns and [bad_gcs] the lines of the file
    [args['bad_gcs']]. *)
Definition select_genome_clusters (args : selection) (profile : option (list string))
    (db : list string) (bad_gcs : list string) : outcome (list string) :=
  sets ←
    (if given_int (gc_topn args) || given_float (gc_cov args) || given_float (gc_rbun args)
     then
       cluster_abundance ← read_abundance (profile_path args) profile;
       let items := map_to_list cluster_abundance in
       by_cov ←
         (if given_float (gc_cov args)
          then lift (Some <$> at_least profile_cov (default 0%Q (gc_cov args)) items ∅)
          else Returns None);
       by_rbun ←
         (if given_float (gc_rbun args)
          then lift (Some <$> at_least profile_rel_abun (default 0%Q (gc_rbun args)) items ∅)
          else Returns None);
       by_topn ←
         (if given_int (gc_topn args)
          then lift (Some <$> top_clusters (default 0 (gc_topn args)) items)
          else Returns None);
       Returns (by_cov, by_rbun, by_topn)
     else Returns (None, None, None));
  let by_rbun :=
    if given_list (gc_id args) then Some (list_to_set (default [] (gc_id args)))
    else sets.1.2 in
  selected ← set_intersection [sets.1.1; by_rbun; sets.2];
  let my_clusters := elements selected in
  match list_find (λ cluster_id, cluster_id ∉ db) my_clusters with
  | Some (_, cluster_id) => Fails (SystemExit (not_found cluster_id))
  | None =>
      let my_clusters := foldl (λ l line, remove_first (rstrip line) l) my_clusters bad_gcs in
      if decide (length my_clusters = 0%nat) then Fails (SystemExit none_selected)
      else Returns my_clusters
  end.

(** ** The best-hit group of a query, as the specification words it *)

(** Both filters hold: [percent_identity >= MarkerCutoffs[marker_id]] and
    [alignment_length / read_length >= 0.75]. *)
Definition passes_filters (marker_cutoffs : gmap string Q) (a : alignment) : bool :=
  match target a, pid a with
  | Some t, Some p =>
      match marker_cutoffs !! final (split_on "_" t), query_coverage a with
      | Some cutoff, OK c => Qle_bool cutoff p && Qle_bool (3 # 4) c
      | _, _ => false
      end
  | _, _ => false
  end.

(** The accepted records of a query, in the order of the input. *)
Definition accepted (marker_cutoffs : gmap string Q) (recs : list alignment) (q : string)
  : list alignment :=
  filter (λ a, query a = Some q ∧ passes_filters marker_cutoffs a) recs.

Definition score_le (a b : alignment) : bool :=
  match score a, score b with
  | Some x, Some y => Qle_bool x y
  | _, _ => false
  end.

(** The records of [l] whose score is the maximum over [l]. *)
Definition top_scoring (l : list alignment) : list alignment :=
  filter (λ a, forallb (λ b, score_le b a) l) l.

Definition best_hit_group (marker_cutoffs : gmap string Q) (recs : list alignment)
    (q : string) : list alignment :=
  top_scoring (accepted marker_cutoffs recs q).

(** The query that a group belongs to: that of its first record. *)
Definition group_query (g : list alignment) : option string :=
  a ← head g; query a.

(** ** Invariants and views used in the statements *)

(** The state of the loop after the records [done]: every query seen with
    an accepted record holds its best-hit group, and no other query has one. *)
Definition resolved (mc : gmap string Q) (done : list alignment)
    (bh : gmap string (list alignment)) : Prop :=
  ∀ q, match bh !! q with
       | None => accepted mc done q = []
       | Some g => g ≠ [] ∧ g = best_hit_group mc done q
       end.

(** Every list object of [h] is still in [h'], with records added at its end. *)
Definition grows (h h' : store) : Prop :=
  length h = length h' ∧
  ∀ l xs, h !! l = Some xs → ∃ ys, h' !! l = Some (xs ++ ys).

(** All the records that the lists of a dict hold. *)
Definition assigned (d : gmap string ref) (h : store) : list alignment :=
  mjoin (values (contents h d)).

(** The references of a dict are in the store and distinct for distinct keys. *)
Definition separate (d : gmap string ref) (h : store) : Prop :=
  (∀ c l, d !! c = Some l → (l < length h)%nat) ∧
  (∀ c1 c2 l, d !! c1 = Some l → d !! c2 = Some l → c1 = c2).

(** The alignment lengths of the records of a cluster. *)
Definition lengths (alns : list alignment) (lens : list Z) : Prop :=
  Forall2 (λ a n, aln a = Some n) alns lens.

(** The cluster registry: the first token of every line of the file. *)
Definition registry (cluster_ids : list string) : result (list string) :=
  mapM (λ x, index (split (rstrip x)) 0) cluster_ids.

(** ** Views used in the further properties *)

(** What a line of the table of markers says: a marker and its cutoff. *)
Definition marker_entry (line : string) (e : string * Q) : Prop :=
  ∃ s, split (rstrip line) = [e.1; s] ∧ float_of_string s = Some e.2.

(** The value that the last pair with key [k] gives to [k]. *)
Definition last_value {A} (k : string) (entries : list (string * A)) : option A :=
  snd <$> last (filter (λ e, e.1 = k) entries).

#[global] Instance exn_eq_dec : EqDecision exn.
Proof. solve_decision. Defined.
#[global] Instance result_eq_dec {A} `{EqDecision A} : EqDecision (result A).
Proof. solve_decision. Defined.

(** The records of the one-record groups whose cluster is [c], in the
    order of the groups. *)
Definition unique_records (alns : list (list alignment)) (c : string) : list alignment :=
  alns ≫= λ aln,
    match aln with
    | [a] => if decide (cluster_of a = OK c) then [a] else []
    | _ => []
    end.

(** What a line of the table of gene lengths says: a cluster and the
    length of one of its genes. *)
Definition gene_entry (line : string) (e : string * Z) : Prop :=
  ∃ gene field,
    index (split line) 0 = OK gene ∧ e.1 = first (split_on "_" gene) ∧
    index (split (rstrip line)) 1 = OK field ∧ int field = OK e.2.

(** The sum of the values of the pairs with key [k]. *)
Definition total_of (k : string) (entries : list (string * Z)) : Z :=
  sum_Z (filter (λ e, e.1 = k) entries).*2.

(** What a line of the profile says: a cluster and the values of the
    columns that the line has. *)
Definition profile_entry (line : string) (e : string * profile) : Prop :=
  let values := split (rstrip line) in
  index values 0 = OK e.1 ∧
  column float values 1 = OK (profile_cov e.2) ∧
  column float values 2 = OK (profile_rel_abun e.2).

(** A string that [split] returns as it is: not empty, and without
    whitespace. *)
Fixpoint no_space (s : string) : bool :=
  match s with
  | EmptyString => true
  | String c s' => negb (Ascii.is_space c) && no_space s'
  end.
Definition token (s : string) : Prop := s ≠ EmptyString ∧ no_space s.

(** What [read_abundance] makes of a value that [write_abundance] wrote. *)
Definition read_back (v : abundance) : profile :=
  {| profile_cov := float_of_string (str_of_float (cov v));
     profile_rel_abun := float_of_string (str_of_float (rel_abun v)) |}.

(** The values of a cluster as a profile holds them when nothing is lost. *)
Definition exact (v : abundance) : profile :=
  {| profile_cov := Some (cov v); profile_rel_abun := Some (rel_abun v) |}.

(** The selection with the threshold on the relative abundance left out. *)
Definition without_rbun (args : selection) : selection :=
  {| gc_topn := gc_topn args; gc_cov := gc_cov args; gc_rbun := None;
     gc_id := gc_id args; profile_path := profile_path args |}.

(** A cluster passes a threshold on one value of the profile. *)
Definition passes (get : profile → option Q) (threshold : Q)
    (items : list (string * profile)) (c : string) : Prop :=
  ∃ v x, (c, v) ∈ items ∧ get v = Some x ∧ (threshold <= x)%Q.


(** The order of [sorted]: an earlier pair has a value that is not less. *)
Definition decreasing (x y : string * Q) : Prop := (y.2 <= x.2)%Q.

(** The clusters of a profile whose relative abundance is more than [x]. *)
Definition more_abundant (x : Q) (values : profile) : bool :=
  match profile_rel_abun values with
  | Some y => Qltb x y
  | None => false
  end.
Definition above (x : Q) (items : list (string * profile)) : list (string * profile) :=
  filter (λ item, more_abundant x item.2) items.
(** ** A sample run

    The scenario of two reads: [r1] has one best hit, in cluster [C1];
    [r2] is tied between [C1] and [C2]. *)

Definition hit (q t : string) (p : Q) (n : Z) (m g qs qe ts te ev sc : Q) : alignment :=
  Alignment (Some q) (Some t) (Some p) (Some n) (Some m) (Some g) (Some qs) (Some qe)
    (Some ts) (Some te) (Some ev) (Some sc).

Definition sample_cutoffs : list string := ["m1 95"; "m2 96.5"].
Definition sample_blastout : list string :=
  ["r1_60 C1_m1 98.5 50 1 0 1 50 1 50 0.001 100";
   "r1_60 C2_m1 98 50 1 0 1 50 1 50 0.001 80";
   "r2_60 C1_m1 99 50 0 0 1 50 11 60 0.001 90";
   "r2_60 C2_m1 99 50 0 0 6 55 1 50 0.001 90";
   "r3_60 C2_m1 90 50 0 0 1 50 1 50 0.001 95";
   "r4_60 C3_m2 99 30 0 0 1 30 1 30 0.001 60"].
Definition sample_cluster_ids : list string := ["C1"; "C2"; "C3"].
Definition sample_gene_length : list string :=
  ["C1_m1 1000"; "C1_m2 500"; "C2_m1 700"; "C3_m2 800"].

Definition sample_marker_cutoffs : gmap string Q := {[ "m1" := 95 # 1; "m2" := 965 # 10 ]}.
Definition r1_C1 : alignment := hit "r1_60" "C1_m1" (985 # 10) 50 1 0 1 50 1 50 (1 # 1000) 100.
Definition r1_C2 : alignment := hit "r1_60" "C2_m1" 98 50 1 0 1 50 1 50 (1 # 1000) 80.
Definition r2_C1 : alignment := hit "r2_60" "C1_m1" 99 50 0 0 1 50 11 60 (1 # 1000) 90.
Definition r2_C2 : alignment := hit "r2_60" "C2_m1" 99 50 0 0 6 55 1 50 (1 # 1000) 90.
Definition r3_C2 : alignment := hit "r3_60" "C2_m1" 90 50 0 0 1 50 1 50 (1 # 1000) 95.
Definition r4_C3 : alignment := hit "r4_60" "C3_m2" 99 30 0 0 1 30 1 30 (1 # 1000) 60.
Definition sample_records : list alignment := [r1_C1; r1_C2; r2_C1; r2_C2; r3_C2; r4_C3].
Definition sample_best_hits : list (list alignment) := [[r1_C1]; [r2_C1; r2_C2]].

Definition sample_rng : rng :=
  {| py_random := {| tape := λ _, Draw 1 1; pos := 0 |};
     np_random := {| tape := λ _, Draw 3 7; pos := 0 |} |}.
Definition sample_rng_after : rng :=
  {| py_random := {| tape := λ _, Draw 1 1; pos := 0 |};
     np_random := {| tape := λ _, Draw 3 7; pos := 1 |} |}.

Definition sample_unique_alns : gmap string ref := {[ "C1" := 0%nat; "C2" := 1%nat; "C3" := 2%nat ]}.
Definition sample_unique_store : store := [[r1_C1]; []; []].
Definition sample_total_store : store := [[r1_C1; r2_C1]; []; []].

Definition sample_cluster_alns : gmap string (list alignment) := {[ "C1" := [r1_C1; r2_C1] ]}.
Definition sample_total_gene_length : gmap string Z := {[ "C1" := 1500 ]}.
Definition sample_abundance : gmap string abundance :=
  Eval vm_compute in
    match normalize_counts sample_cluster_alns sample_total_gene_length with
    | OK cluster_abundance => cluster_abundance
    | Raise _ => ∅
    end.

Definition sample_table : list string :=
  [header;
   join tab ["C3"; "0/1"; "0/1"] +:+ newline;
   join tab ["C1"; "1/15"; "1/1"] +:+ newline;
   join tab ["C2"; "0/1"; "0/1"] +:+ newline].

(** Two reads, each tied between [C1] and [C2], and no unique read. *)
Definition tied_blastout : list string :=
  ["r2_60 C1_m1 99 50 0 0 1 50 11 60 0.001 90";
   "r2_60 C2_m1 99 50 0 0 6 55 1 50 0.001 90";
   "r5_60 C1_m1 99 50 0 0 1 50 1 50 0.001 85";
   "r5_60 C2_m1 99 50 0 0 1 50 1 50 0.001 85"].
Definition r5_C1 : alignment := hit "r5_60" "C1_m1" 99 50 0 0 1 50 1 50 (1 # 1000) 85.
Definition r5_C2 : alignment := hit "r5_60" "C2_m1" 99 50 0 0 1 50 1 50 (1 # 1000) 85.
Definition tied_best_hits : list (list alignment) := [[r5_C1; r5_C2]; [r2_C1; r2_C2]].
Definition tied_unique_alns : gmap string ref := {[ "C1" := 0%nat; "C2" := 1%nat ]}.
Definition tied_rng_after : rng :=
  {| py_random := {| tape := λ _, Draw 1 1; pos := 1 |};
     np_random := {| tape := λ _, Draw 3 7; pos := 0 |} |}.

(** One unique read and two ambiguous ones: [r1] has one best hit, in
    [C1]; [r6] is tied between [C2] and [C3]; [r2] is tied between [C1]
    and [C2]. *)
Definition mixed_blastout : list string :=
  ["r1_60 C1_m1 98.5 50 1 0 1 50 1 50 0.001 100";
   "r1_60 C2_m1 98 50 1 0 1 50 1 50 0.001 80";
   "r6_60 C2_m1 99 50 0 0 1 50 1 50 0.001 85";
   "r6_60 C3_m1 99 50 0 0 1 50 1 50 0.001 85";
   "r2_60 C1_m1 99 50 0 0 1 50 11 60 0.001 90";
   "r2_60 C2_m1 99 50 0 0 6 55 1 50 0.001 90"].
Definition r6_C2 : alignment := hit "r6_60" "C2_m1" 99 50 0 0 1 50 1 50 (1 # 1000) 85.
Definition r6_C3 : alignment := hit "r6_60" "C3_m1" 99 50 0 0 1 50 1 50 (1 # 1000) 85.
Definition mixed_best_hits : list (list alignment) :=
  [[r1_C1]; [r6_C2; r6_C3]; [r2_C1; r2_C2]].
Definition mixed_rng : rng :=
  {| py_random := {| tape := λ _, Draw 1 4; pos := 0 |};
     np_random := {| tape := λ _, Draw 5 7; pos := 0 |} |}.
Definition mixed_rng_between : rng :=
  {| py_random := {| tape := λ _, Draw 1 4; pos := 1 |};
     np_random := {| tape := λ _, Draw 5 7; pos := 0 |} |}.
Definition mixed_rng_after : rng :=
  {| py_random := {| tape := λ _, Draw 1 4; pos := 1 |};
     np_random := {| tape := λ _, Draw 5 7; pos := 1 |} |}.

(** The lists of three clusters, one of them without a record, and the
    total gene lengths of [sample_gene_length]. *)
Definition mixed_cluster_alns : gmap string (list alignment) :=
  {[ "C1" := [r1_C1; r2_C1]; "C2" := [r6_C2]; "C3" := [] ]}.
Definition mixed_total_gene_length : gmap string Z :=
  {[ "C1" := 1500; "C2" := 700; "C3" := 800 ]}.
Definition mixed_abundance : gmap string abundance :=
  Eval vm_compute in
    match normalize_counts mixed_cluster_alns mixed_total_gene_length with
    | OK cluster_abundance => cluster_abundance
    | Raise _ => ∅
    end.

(** A table of three clusters, as [normalize_counts] leaves it. *)
Definition written_abundance : gmap string abundance :=
  {[ "C1" := {| cov := 1 # 15; rel_abun := 14 # 29 |};
     "C2" := {| cov := 1 # 14; rel_abun := 15 # 29 |};
     "C3" := {| cov := 0; rel_abun := 0 |} ]}.

(** * Properties *)

(** ** Results *)

Lemma bind_OK {A B} (m : result A) (f : A → result B) (b : B) :
  m ≫= f = OK b ↔ ∃ a, m = OK a ∧ f a = OK b.
Proof.
  destruct m as [a|e]; simpl; split.
  - intros H. by exists a.
  - by intros (a' & [= <-] & H).
  - discriminate.
  - by intros (a' & [=] & _).
Qed.

Lemma fmap_OK {A B} (m : result A) (f : A → B) (b : B) :
  f <$> m = OK b ↔ ∃ a, m = OK a ∧ b = f a.
Proof.
  destruct m as [a|e]; simpl; split.
  - intros [= <-]. by exists a.
  - by intros (a' & [= <-] & ->).
  - discriminate.
  - by intros (a' & [=] & _).
Qed.

Lemma getitem_OK {A} (o : option A) (a : A) : getitem o = OK a ↔ o = Some a.
Proof. destruct o; simpl; split; congruence. Qed.

Lemma index_OK {A} (l : list A) (i : nat) (a : A) : index l i = OK a ↔ l !! i = Some a.
Proof. unfold index. destruct (l !! i); split; congruence. Qed.

(** ** The record reader *)

Lemma column_OK {A} (fmt : string → result A) (vs : list string) (i : nat) (o : option A) :
  column fmt vs i = OK o →
  match vs !! i with
  | Some v => ∃ x, fmt v = OK x ∧ o = Some x
  | None => o = None
  end.
Proof.
  unfold column. destruct (vs !! i) as [v|]; [|congruence].
  intros (x & ? & ->)%fmap_OK. eauto.
Qed.

Lemma column_Raise {A} (fmt : string → result A) (vs : list string) (i : nat) (e : exn) :
  column fmt vs i = Raise e → ∃ v, vs !! i = Some v ∧ fmt v = Raise e.
Proof.
  unfold column. destruct (vs !! i) as [v|]; [|discriminate].
  destruct (fmt v) eqn:E; [discriminate|]. intros [= <-]. eauto.
Qed.

Lemma int_Raise (s : string) (e : exn) : int s = Raise e → e = ValueError ∧ ¬ accepts Fint s.
Proof.
  intros H. split.
  - unfold int in H. repeat case_match; congruence.
  - intros [z Hz]. congruence.
Qed.

Lemma float_Raise (s : string) (e : exn) :
  float s = Raise e → e = ValueError ∧ ¬ accepts Ffloat s.
Proof.
  intros H. split.
  - unfold float in H. case_match; congruence.
  - intros [z Hz]. congruence.
Qed.

(** One column of [parse_line]: either it converts, or the line is refused. *)
Ltac step_column i fm :=
  match goal with
  | |- context [column ?f ?vs i ≫= _] =>
      let E := fresh "E" in
      destruct (column f vs i) as [?|?] eqn:E; simpl;
      [ apply column_OK in E
      | apply column_Raise in E as (? & ? & [-> ?]%fm);
        split; [done|]; exists i; eauto ]
  end.

(** C2, as amended.  The reader converts the first twelve values of a line,
    each by the converter of its column, and nothing else: it raises
    [ValueError] exactly when one of them is refused, and otherwise yields
    a record with one key per value present, so that a line of fewer than
    twelve values gives a record of fewer keys and the values after the
    twelfth are ignored. *)
Theorem parse_line_columns (line : string) :
  let vs := split (rstrip line) in
  match parse_line line with
  | OK a =>
      keys a = take (length vs) fields ∧
      ∀ i fmt v, formats !! i = Some fmt → vs !! i = Some v → accepts fmt v
  | Raise e =>
      e = ValueError ∧
      ∃ i fmt v, formats !! i = Some fmt ∧ vs !! i = Some v ∧ ¬ accepts fmt v
  end.
Proof.
  intros vs. unfold parse_line. fold vs. generalize vs. clear vs line. intros vs.
  destruct (column str vs 0) as [v0|] eqn:E0; simpl;
    [apply column_OK in E0 | by apply column_Raise in E0 as (? & ? & ?)].
  destruct (column str vs 1) as [v1|] eqn:E1; simpl;
    [apply column_OK in E1 | by apply column_Raise in E1 as (? & ? & ?)].
  step_column 2%nat float_Raise. step_column 3%nat int_Raise.
  step_column 4%nat float_Raise. step_column 5%nat float_Raise.
  step_column 6%nat float_Raise. step_column 7%nat float_Raise.
  step_column 8%nat float_Raise. step_column 9%nat float_Raise.
  step_column 10%nat float_Raise. step_column 11%nat float_Raise.
  split.
  - do 12 (destruct vs as [|? vs]; simpl in *;
           [ repeat match goal with
                    | H : ∃ _, _ ∧ _ = Some _ |- _ => destruct H as (? & _ & ->)
                    | H : ?o = None |- _ => subst o
                    end; reflexivity |]).
    repeat match goal with
           | H : ∃ _, _ ∧ _ = Some _ |- _ => destruct H as (? & _ & ->)
           end.
    unfold keys. simpl. by rewrite take_nil.
  - intros i fmt v Hf Hv.
    do 12 (destruct i as [|i]; simpl in Hf;
           [ injection Hf as <-; rewrite Hv in *; simpl;
             match goal with
             | |- True => exact I
             | H : ∃ _, _ ∧ _ |- _ => destruct H as (? & ? & _); eauto
             end |]).
    discriminate Hf.
Qed.

(** ** The best-hit resolver *)

Lemma Qltb_false (x y : Q) : Qltb x y = false ↔ (y <= x)%Q.
Proof. unfold Qltb. rewrite negb_false_iff. apply Qle_bool_iff. Qed.

Lemma Qltb_true (x y : Q) : Qltb x y = true ↔ (x < y)%Q.
Proof.
  unfold Qltb. rewrite negb_true_iff, <- not_true_iff_false, Qle_bool_iff.
  split; [apply Qnot_le_lt | apply Qlt_not_le].
Qed.

Lemma score_le_Some (a b : alignment) :
  score_le a b ↔ ∃ x y, score a = Some x ∧ score b = Some y ∧ (x <= y)%Q.
Proof.
  unfold score_le. destruct (score a) as [x|], (score b) as [y|]; simpl.
  - rewrite Is_true_true, Qle_bool_iff. split; [eauto|]. by intros (? & ? & [= <-] & [= <-] & ?).
  - split; [done|]. by intros (? & ? & _ & [=] & _).
  - split; [done|]. by intros (? & ? & [=] & _).
  - split; [done|]. by intros (? & ? & [=] & _).
Qed.

Lemma filter_all {A} (P : A → Prop) `{!∀ x, Decision (P x)} (l : list A) :
  Forall P l → filter P l = l.
Proof.
  induction 1 as [|x l Hx _ IH]; [done|]. by rewrite filter_cons_True, IH.
Qed.

Lemma filter_none {A} (P : A → Prop) `{!∀ x, Decision (P x)} (l : list A) :
  Forall (λ x, ¬ P x) l → filter P l = [].
Proof.
  induction 1 as [|x l Hx _ IH]; [done|]. by rewrite filter_cons_False.
Qed.

Lemma top_scoring_snoc (l : list alignment) (a : alignment) :
  top_scoring (l ++ [a]) =
    filter (λ x, score_le a x) (top_scoring l) ++
    (if forallb (λ b, score_le b a) (l ++ [a]) then [a] else []).
Proof.
  unfold top_scoring. rewrite filter_app. f_equal.
  - rewrite list_filter_filter. apply list_filter_iff. intros x.
    rewrite forallb_app. simpl. rewrite !andb_True. intuition.
  - rewrite filter_cons, filter_nil.
    by destruct (forallb _ (l ++ [a])).
Qed.

(** What one iteration of the loop does when it does not raise. *)
Lemma best_hit_OK (mc : gmap string Q) (bh bh' : gmap string (list alignment))
    (a : alignment) :
  best_hit mc bh a = OK bh' →
  (passes_filters mc a = false ∧ bh' = bh) ∨
  (passes_filters mc a = true ∧ ∃ q, query a = Some q ∧
     match bh !! q with
     | None => bh' = <[q := [a]]> bh
     | Some hits =>
         ∃ top s0 s, head hits = Some top ∧ score top = Some s0 ∧ score a = Some s ∧
           bh' = if Qeq_bool s0 s then <[q := hits ++ [a]]> bh
                 else if Qltb s0 s then <[q := [a]]> bh else bh
     end).
Proof.
  unfold best_hit, passes_filters. intros H.
  apply bind_OK in H as (t & ->%getitem_OK & H).
  apply bind_OK in H as (p & ->%getitem_OK & H).
  apply bind_OK in H as (cutoff & ->%getitem_OK & H).
  destruct (Qltb p cutoff) eqn:Hp.
  { left. injection H as <-. split; [|done].
    apply Qltb_true, Qlt_not_le in Hp. rewrite <- Qle_bool_iff in Hp.
    destruct (Qle_bool cutoff p); [done|]. by destruct (query_coverage a). }
  apply Qltb_false, Qle_bool_iff in Hp. rewrite Hp.
  apply bind_OK in H as (c & -> & H).
  destruct (Qltb c (3 # 4)) eqn:Hc.
  { left. injection H as <-. split; [|done].
    apply Qltb_true, Qlt_not_le in Hc. rewrite <- Qle_bool_iff in Hc.
    by destruct (Qle_bool (3 # 4) c). }
  apply Qltb_false, Qle_bool_iff in Hc. rewrite Hc.
  right. split; [done|].
  apply bind_OK in H as (q & ->%getitem_OK & H). exists q. split; [done|].
  destruct (bh !! q) as [hits|]; [|congruence].
  apply bind_OK in H as (top & Htop%index_OK & H).
  apply bind_OK in H as (s0 & Hs0%getitem_OK & H).
  apply bind_OK in H as (s & Hs%getitem_OK & H).
  exists top, s0, s. rewrite head_lookup. repeat split; try done.
  repeat case_match; congruence.
Qed.

Lemma accepted_snoc (mc : gmap string Q) (done : list alignment) (a : alignment) (q : string) :
  accepted mc (done ++ [a]) q =
    accepted mc done q ++
    (if decide (query a = Some q ∧ passes_filters mc a) then [a] else []).
Proof. unfold accepted. by rewrite filter_app, filter_cons, filter_nil. Qed.

Lemma top_scoring_head (l : list alignment) (top : alignment) :
  head (top_scoring l) = Some top →
  top ∈ l ∧ Forall (λ b, score_le b top) l ∧ Forall (λ x, score_le top x) (top_scoring l).
Proof.
  intros H. apply head_Some_elem_of in H as Hin.
  apply list_elem_of_filter in Hin as [Hmax Hin]. apply forallb_True in Hmax.
  repeat split; try done.
  apply Forall_forall. intros x [Hx _]%list_elem_of_filter.
  apply forallb_True in Hx. rewrite Forall_forall in Hx. by apply Hx.
Qed.

Lemma resolved_step (mc : gmap string Q) (done : list alignment)
    (bh bh' : gmap string (list alignment)) (a : alignment) :
  is_Some (score a) →
  resolved mc done bh →
  best_hit mc bh a = OK bh' →
  resolved mc (done ++ [a]) bh'.
Proof.
  clear str_of_float float_of_string.
  intros [sa Hsa] Hinv H q'.
  apply best_hit_OK in H as [[Hno ->]|(Hyes & q & Hq & H)].
  { specialize (Hinv q'). unfold best_hit_group in *. rewrite accepted_snoc.
    rewrite decide_False, app_nil_r; [done|]. rewrite Hno. naive_solver. }
  destruct (decide (q' = q)) as [->|Hne]; cycle 1.
  { assert (bh' !! q' = bh !! q') as ->.
    { destruct (bh !! q) as [hits|]; [|subst; by rewrite lookup_insert_ne].
      destruct H as (top & s0 & s & _ & _ & _ & ->).
      repeat case_match; by rewrite ?lookup_insert_ne. }
    specialize (Hinv q'). unfold best_hit_group in *. rewrite accepted_snoc.
    rewrite decide_False, app_nil_r; [done|]. naive_solver. }
  specialize (Hinv q). unfold best_hit_group in *. rewrite accepted_snoc.
  rewrite decide_True by (by rewrite Hyes).
  destruct (bh !! q) as [hits|] eqn:Hbh.
  - destruct Hinv as [Hne Hhits], H as (top & s0 & s & Htop & Hs0 & Hs & ->).
    rewrite top_scoring_snoc, <- Hhits.
    rewrite Hhits in Htop. apply top_scoring_head in Htop as (Hin & Hmax & Hbest).
    rewrite <- Hhits in Hbest.
    assert (Hle : ∀ b, b ∈ accepted mc done q → ∃ y, score b = Some y ∧ (y <= s0)%Q).
    { intros b Hb. rewrite Forall_forall in Hmax.
      apply Hmax, score_le_Some in Hb as (x & y & ? & ? & ?). exists x. naive_solver. }
    assert (Hge : ∀ x, x ∈ hits → ∃ y, score x = Some y ∧ (s0 <= y)%Q).
    { intros b Hb. rewrite Forall_forall in Hbest.
      apply Hbest, score_le_Some in Hb as (x & y & ? & ? & ?). exists y. naive_solver. }
    assert (Hnew : (s0 <= s)%Q → forallb (λ b, score_le b a) (accepted mc done q ++ [a]) = true).
    { intros ?. apply Is_true_true, forallb_True, Forall_app. split.
      - apply Forall_forall. intros b (y & Hy & ?)%Hle.
        apply score_le_Some. exists y, s. repeat split; try done. lra.
      - apply Forall_singleton, score_le_Some. exists s, s. repeat split; try done. lra. }
    assert (Hkeep : (s <= s0)%Q → filter (λ x, score_le a x) hits = hits).
    { intros ?. apply filter_all, Forall_forall. intros x (y & Hy & ?)%Hge.
      apply score_le_Some. exists s, y. repeat split; try done. lra. }
    destruct (Qeq_bool s0 s) eqn:Heq; [|destruct (Qltb s0 s) eqn:Hlt].
    + apply Qeq_bool_iff in Heq. rewrite lookup_insert_eq.
      split; [by destruct hits|].
      rewrite Hkeep, Hnew; [done|lra|lra].
    + apply Qltb_true in Hlt. rewrite lookup_insert_eq. split; [done|].
      rewrite Hnew by lra. rewrite filter_none; [done|].
      apply Forall_forall. intros x Hx Hax.
      assert (x ∈ accepted mc done q) as (y & Hy & ?)%Hle.
      { rewrite Hhits in Hx. by apply list_elem_of_filter in Hx as [_ ?]. }
      apply score_le_Some in Hax as (s' & y' & ? & ? & ?).
      assert (s' = s ∧ y' = y) as [-> ->] by (split; congruence). lra.
    + apply Qltb_false in Hlt. rewrite Hbh. split; [done|].
      assert (Hneq : ¬ (s0 == s)%Q) by (by intros ?%Qeq_bool_iff; congruence).
      rewrite Hkeep by done.
      assert (forallb (λ b, score_le b a) (accepted mc done q ++ [a]) = false) as ->.
      { apply not_true_iff_false. intros Hall%Is_true_true%forallb_True.
        apply Forall_app in Hall as [Hall _]. rewrite Forall_forall in Hall.
        apply Hall, score_le_Some in Hin as (s' & y' & ? & ? & ?).
        assert (s' = s0 ∧ y' = s) as [-> ->] by (split; congruence).
        apply Hneq. by apply Qle_antisym. }
      by rewrite app_nil_r.
  - subst bh'. rewrite lookup_insert_eq, Hinv. split; [done|].
    unfold top_scoring. simpl. rewrite filter_cons_True, filter_nil; [done|].
    simpl. rewrite andb_True. split; [|done].
    apply score_le_Some. exists sa, sa. repeat split; try done. lra.
Qed.

Lemma parse_blast_cons (line : string) (lines : list string) (recs : list alignment) :
  parse_blast (line :: lines) = OK recs ↔
  ∃ a recs', parse_line line = OK a ∧ parse_blast lines = OK recs' ∧ recs = a :: recs'.
Proof.
  unfold parse_blast. simpl. rewrite bind_OK. split.
  - intros (a & Ha & (recs' & Hr & [= <-])%bind_OK). eauto.
  - intros (a & recs' & Ha & Hr & ->). exists a. split; [done|]. by rewrite Hr.
Qed.

Lemma find_best_hits_loop_resolved (mc : gmap string Q) (lines : list string) :
  ∀ (done recs : list alignment) (bh bh' : gmap string (list alignment)),
    resolved mc done bh →
    find_best_hits_loop mc lines bh = OK bh' →
    parse_blast lines = OK recs →
    Forall (λ a, is_Some (score a)) recs →
    resolved mc (done ++ recs) bh'.
Proof.
  induction lines as [|line lines IH]; intros done recs bh bh' Hinv Hloop Hrecs Hsc.
  - injection Hloop as <-. injection Hrecs as <-. by rewrite app_nil_r.
  - apply parse_blast_cons in Hrecs as (a & recs' & Ha & Hrecs & ->).
    simpl in Hloop. rewrite Ha in Hloop. simpl in Hloop.
    apply bind_OK in Hloop as (bh1 & Hstep & Hloop).
    apply Forall_cons in Hsc as [Hsa Hsc].
    rewrite cons_middle, app_assoc.
    eapply IH; eauto using resolved_step.
Qed.

(** In a dict whose values name their own key, the values that name [k] are
    the one stored under [k]. *)
Lemma values_filter_key {A} (f : A → option string) (d : gmap string A) (k : string) (v : A) :
  (∀ k' v', d !! k' = Some v' → f v' = Some k') →
  d !! k = Some v →
  filter (λ x, f x = Some k) (values d) = [v].
Proof.
  intros Hf Hk. apply Permutation_singleton_r. unfold values.
  rewrite <- (map_to_list_delete d k v Hk). rewrite fmap_cons. simpl.
  rewrite filter_cons_True by eauto. constructor.
  rewrite filter_none; [done|].
  apply Forall_forall. intros x ((k' & x') & -> & Hin)%list_elem_of_fmap.
  apply elem_of_map_to_list in Hin. simpl.
  destruct (decide (k' = k)) as [->|Hne].
  - by rewrite lookup_delete_eq in Hin.
  - rewrite lookup_delete_ne in Hin by done. apply Hf in Hin. congruence.
Qed.

Lemma best_hit_group_query (mc : gmap string Q) (recs : list alignment) (q : string) :
  best_hit_group mc recs q ≠ [] → group_query (best_hit_group mc recs q) = Some q.
Proof.
  unfold group_query. destruct (best_hit_group mc recs q) as [|a g] eqn:E; [done|].
  intros _. simpl.
  assert (a ∈ best_hit_group mc recs q) as Hin by (rewrite E; left).
  apply list_elem_of_filter in Hin as [_ Hin].
  by apply list_elem_of_filter in Hin as [[? _] _].
Qed.

(** C3.  When the resolver returns, a query with an accepted record has
    exactly one group among the results, and that group is the list of the
    input records of the query that pass both filters and whose score is
    the maximum over the accepted records of the query. *)
Theorem find_best_hits_groups (marker_cutoffs_file blastout : list string)
    (mc : gmap string Q) (recs : list alignment) (groups : list (list alignment))
    (q : string) :
  get_markers marker_cutoffs_file = OK mc →
  parse_blast blastout = OK recs →
  Forall (λ a, is_Some (score a)) recs →
  find_best_hits marker_cutoffs_file blastout = OK groups →
  accepted mc recs q ≠ [] →
  let group := best_hit_group mc recs q in
  filter (λ g, group_query g = Some q) groups = [group] ∧
  group ≠ [] ∧
  (∀ a, a ∈ group ↔
        a ∈ recs ∧ query a = Some q ∧ passes_filters mc a ∧
        ∀ b, b ∈ recs → query b = Some q → passes_filters mc b → score_le b a) ∧
  (∀ a b, a ∈ group → b ∈ group →
          ∃ x y, score a = Some x ∧ score b = Some y ∧ (x == y)%Q).
Proof.
  intros Hmc Hrecs Hsc Hfind Hacc group. unfold find_best_hits in Hfind.
  rewrite Hmc in Hfind. simpl in Hfind.
  apply bind_OK in Hfind as (bh & Hloop & [= <-]).
  assert (Hres : resolved mc recs bh).
  { by apply (find_best_hits_loop_resolved mc blastout [] recs ∅ bh). }
  assert (Hmem : ∀ a, a ∈ group ↔
        a ∈ recs ∧ query a = Some q ∧ passes_filters mc a ∧
        ∀ b, b ∈ recs → query b = Some q → passes_filters mc b → score_le b a).
  { intros a. unfold group, best_hit_group, top_scoring, accepted.
    rewrite !list_elem_of_filter, forallb_True, Forall_forall.
    setoid_rewrite list_elem_of_filter. naive_solver. }
  pose proof (Hres q) as Hq. destruct (bh !! q) as [g|] eqn:Hbh; [|done].
  destruct Hq as [Hne ->]. fold group in Hne. split; [|split; [done|split; [done|]]].
  - apply values_filter_key; [|done]. intros q' g' Hg'.
    specialize (Hres q'). rewrite Hg' in Hres. destruct Hres as [? ->].
    by apply best_hit_group_query.
  - intros a b Ha Hb.
    pose proof (proj1 (Hmem a) Ha) as (Ha1 & Ha2 & Ha3 & Ha4).
    pose proof (proj1 (Hmem b) Hb) as (Hb1 & Hb2 & Hb3 & Hb4).
    pose proof (Ha4 b Hb1 Hb2 Hb3) as (y & x & Hy & Hx & ?)%score_le_Some.
    pose proof (Hb4 a Ha1 Ha2 Ha3) as (x' & y' & Hx' & Hy' & ?)%score_le_Some.
    assert (x' = x ∧ y' = y) as [-> ->] by (split; congruence).
    exists x, y. repeat split; try done. by apply Qle_antisym.
Qed.

(** ** The weighted draw *)

Lemma mapM_OK {A B} (f : A → result B) (l : list A) (k : list B) :
  mapM f l = OK k ↔ Forall2 (λ x y, f x = OK y) l k.
Proof.
  revert k. induction l as [|x l IH]; intros k; simpl.
  - split; [intros [= <-]; constructor | by inversion 1].
  - rewrite bind_OK. split.
    + intros (y & Hy & (k' & Hk & [= <-])%bind_OK). constructor; [done|]. by apply IH.
    + inversion 1 as [|? y ? k' Hy Hk]; subst. exists y. split; [done|].
      apply IH in Hk. by rewrite Hk.
Qed.

Lemma uniform_range (d : draw) : (0 <= uniform d)%Q ∧ (uniform d < 1)%Q.
Proof.
  unfold uniform, Qle, Qlt. simpl.
  pose proof (Nat.mod_upper_bound (dnum d) (S (dden d))). lia.
Qed.

Lemma Qdiv_le_iff (c u t : Q) : (0 < t)%Q → (c / t <= u)%Q ↔ (c <= u * t)%Q.
Proof.
  intros Ht. split; intros H.
  - assert (c == (c / t) * t)%Q as -> by (field; lra).
    apply Qmult_le_compat_r; lra.
  - by apply Qle_shift_div_r.
Qed.

(** The position found in the normalised cumulative sums holds a positive
    probability. *)
Lemma searchsorted_positive (t u : Q) (p : list Q) :
  (0 < t)%Q →
  ∀ acc, (acc <= u * t)%Q → (u * t < acc + Qsum p)%Q →
    ∃ x, p !! searchsorted ((λ c, c / t)%Q <$> cumsum acc p) u = Some x ∧ (0 < x)%Q.
Proof.
  intros Ht. induction p as [|x p IH]; intros acc Hlo Hhi; simpl in *.
  - lra.
  - destruct (Qle_bool ((acc + x) / t) u) eqn:E.
    + apply Qle_bool_iff, Qdiv_le_iff in E; [|done].
      apply IH; [done|lra].
    + exists x. split; [done|].
      apply not_true_iff_false in E. rewrite Qle_bool_iff, Qdiv_le_iff in E by done. lra.
Qed.

Lemma last_cumsum (p : list Q) :
  p ≠ [] → ∀ acc d, (List.last (cumsum acc p) d == acc + Qsum p)%Q.
Proof.
  induction p as [|x [|y p] IH]; intros Hp acc d; [done| |].
  - simpl. lra.
  - change (List.last (cumsum acc (x :: y :: p)) d)
      with (List.last (cumsum (acc + x) (y :: p)) d).
    rewrite IH by done. simpl. lra.
Qed.

Lemma Qsum_ratio (t : Q) (counts : list nat) :
  (Qsum ((λ count, inject_Z (Z.of_nat count) / t)%Q <$> counts)
   == inject_Z (Z.of_nat (sum_list counts)) / t)%Q.
Proof.
  induction counts as [|n counts IH]; simpl.
  - unfold Qdiv. change (inject_Z 0) with 0%Q. ring.
  - rewrite IH, Nat2Z.inj_add, inject_Z_plus. unfold Qdiv. ring.
Qed.

(** [choice] returns, and what it returns has a nonzero count. *)
Lemma choice_nonzero (a : list string) (counts : list nat) (g : generator) :
  length a = length counts →
  sum_list counts ≠ 0%nat →
  ∃ i c n, a !! i = Some c ∧ counts !! i = Some n ∧ n ≠ 0%nat ∧
    choice a (probabilities counts) g = OK (c, (random g).2).
Proof.
  intros Hlen Hsum. unfold choice.
  destruct (random g) as [u g'] eqn:Hg. simpl.
  assert (Hu : (0 <= u)%Q ∧ (u < 1)%Q).
  { unfold random in Hg. injection Hg as <- _. apply uniform_range. }
  set (t := List.last (cumsum 0 (probabilities counts)) 0%Q).
  assert (Hpos : (0 < inject_Z (Z.of_nat (sum_list counts)))%Q).
  { change 0%Q with (inject_Z 0). rewrite <- Zlt_Qlt. lia. }
  assert (Ht : (t == 1)%Q).
  { unfold t. rewrite last_cumsum by (by destruct counts).
    unfold probabilities. rewrite Qsum_ratio. field. lra. }
  destruct (searchsorted_positive t u (probabilities counts)) with (acc := 0%Q)
    as (x & Hx & Hx0).
  - lra.
  - rewrite Ht. lra.
  - unfold probabilities. rewrite Qsum_ratio, Ht.
    assert (inject_Z (Z.of_nat (sum_list counts)) / inject_Z (Z.of_nat (sum_list counts)) == 1)%Q
      as -> by (field; lra).
    lra.
  - set (i := searchsorted _ u) in *.
    unfold probabilities in Hx. rewrite list_lookup_fmap in Hx.
    destruct (counts !! i) as [n|] eqn:Hn; [|done]. injection Hx as <-.
    destruct (lookup_lt_is_Some_2 a i) as [c Hc].
    { rewrite Hlen. by eapply lookup_lt_Some. }
    exists i, c, n. unfold index. rewrite Hc. repeat split; try done.
    intros ->. change (inject_Z (Z.of_nat 0)) with 0%Q in Hx0.
    unfold Qdiv in Hx0. rewrite Qmult_0_l in Hx0. lra.
Qed.

Lemma mapM_total {A B} (f : A → result B) (l : list A) :
  (∀ x, x ∈ l → ∃ y, f x = OK y) → ∃ k, mapM f l = OK k.
Proof.
  induction l as [|x l IH]; intros Hf; simpl.
  - by exists [].
  - destruct (Hf x) as [y Hy]; [left|].
    destruct IH as [k Hk]; [intros; apply Hf; by right|].
    exists (y :: k). by rewrite Hy, Hk.
Qed.

Lemma sum_list_lookup_le (l : list nat) (i n : nat) :
  l !! i = Some n → (n ≤ sum_list l)%nat.
Proof.
  revert i. induction l as [|m l IH]; intros [|i] H; simplify_eq/=; [lia|].
  apply IH in H. lia.
Qed.

Lemma len_at_OK (d : gmap string ref) (h : store) (x : string) (n : nat) :
  len_at d h x = OK n ↔ ∃ l xs, d !! x = Some l ∧ h !! l = Some xs ∧ n = length xs.
Proof.
  unfold len_at. rewrite bind_OK. setoid_rewrite bind_OK.
  setoid_rewrite getitem_OK. split.
  - intros (l & ? & xs & ? & [= <-]). eauto.
  - intros (l & xs & ? & ? & ->). eauto.
Qed.

(** X24.  A group that is reassigned when the list of one candidate
    cluster holds records and the lists of its other candidates hold none
    goes to that cluster, whatever the state of the random sources: the
    first record of the group that belongs to the cluster is appended to
    its list.  The lists are the ones of [unique_alns] as they are when
    the group is reached. *)
Theorem assign_non_unique_single_weight (unique_alns : gmap string ref) (h : store)
    (r : rng) (aln : list alignment) (clusters : list string) (c0 : string) :
  (1 < length aln)%nat →
  mapM cluster_of aln = OK clusters →
  c0 ∈ clusters →
  (∀ c, c ∈ clusters → ∃ n, len_at unique_alns h c = OK n ∧ (n ≠ 0%nat ↔ c = c0)) →
  ∃ l xs i a r',
    unique_alns !! c0 = Some l ∧ h !! l = Some xs ∧
    aln !! i = Some a ∧ cluster_of a = OK c0 ∧
    (∀ j b, (j < i)%nat → aln !! j = Some b → cluster_of b ≠ OK c0) ∧
    choose unique_alns h clusters r = OK (c0, r') ∧
    assign_non_unique [aln] unique_alns (h, r) =
      OK (unique_alns, (<[l := xs ++ [a]]> h, r')).
Proof.
  intros Hlen Hcl Hc0 Hw.
  destruct (mapM_total (len_at unique_alns h) clusters) as [counts Hcounts].
  { intros c (n & ? & _)%Hw. eauto. }
  pose proof Hcounts as Hall. apply mapM_OK in Hall.
  pose proof Hcl as Hcl2. apply mapM_OK in Hcl2.
  assert (Hsum : sum_list counts ≠ 0%nat).
  { apply list_elem_of_lookup in Hc0 as [i Hi].
    destruct (Forall2_lookup_l _ _ _ _ _ Hall Hi) as (n & Hn & Hlen0).
    destruct (Hw c0) as (n' & Hn' & Hnz); [by eapply list_elem_of_lookup_2|].
    assert (n' = n) as -> by congruence.
    apply sum_list_lookup_le in Hn. assert (n ≠ 0%nat) by by apply Hnz. lia. }
  destruct (choice_nonzero clusters counts (np_random r)) as (i & c & n & Hc & Hn & Hnz & Hch).
  { by eapply Forall2_length. }
  { done. }
  assert (c = c0) as ->.
  { destruct (Hw c) as (n' & Hn' & Hiff); [by eapply list_elem_of_lookup_2|].
    pose proof (Forall2_lookup_lr _ _ _ _ _ _ Hall Hc Hn). apply Hiff. congruence. }
  destruct (Hw c0 Hc0) as (n0 & (l & xs & Hl & Hxs & _)%len_at_OK & _).
  destruct (list_find_elem_of (λ y, y = c0) clusters c0 Hc0 eq_refl) as [[j c'] Hfind].
  pose proof Hfind as (Hj & -> & Hfirst)%list_find_Some.
  destruct (Forall2_lookup_r _ _ _ _ _ Hcl2 Hj) as (a & Ha & Hca).
  set (r' := {| py_random := py_random r; np_random := (random (np_random r)).2 |}).
  assert (Hchoose : choose unique_alns h clusters r = OK (c0, r')).
  { unfold choose, weights. rewrite Hcounts. simpl.
    rewrite decide_False by done. by rewrite Hch. }
  exists l, xs, j, a, r'. repeat split; try done.
  - intros k b Hk Hb Hcb.
    destruct (Forall2_lookup_l _ _ _ _ _ Hcl2 Hb) as (c' & Hc' & Hcb').
    apply (Hfirst k c' Hc' Hk). congruence.
  - unfold assign_non_unique, copy. simpl. rewrite decide_True by done.
    unfold reassign. rewrite Hcl. simpl. rewrite Hchoose. simpl.
    rewrite Hl. simpl. unfold list_index. rewrite Hfind. simpl.
    unfold index. rewrite Ha. simpl. unfold append. by rewrite Hxs.
Qed.

(** ** The shared list objects *)

Lemma grows_refl (h : store) : grows h h.
Proof. split; [done|]. intros l xs ?. exists []. by rewrite app_nil_r. Qed.

Lemma grows_trans (h1 h2 h3 : store) : grows h1 h2 → grows h2 h3 → grows h1 h3.
Proof.
  intros [Hl1 H1] [Hl2 H2]. split; [congruence|].
  intros l xs (ys & (zs & ->)%H2)%H1. exists (ys ++ zs). by rewrite app_assoc.
Qed.

Lemma grows_append (h : store) (l : ref) (xs : list alignment) (a : alignment) :
  h !! l = Some xs → grows h (<[l := xs ++ [a]]> h).
Proof.
  intros Hl. split; [by rewrite length_insert|]. intros l' xs' Hl'.
  destruct (decide (l' = l)) as [->|Hne].
  - exists [a]. assert (xs' = xs) as -> by congruence.
    apply list_lookup_insert_eq. by eapply lookup_lt_Some.
  - exists []. by rewrite list_lookup_insert_ne, app_nil_r.
Qed.

Lemma grows_inv (h h' : store) (l : ref) (xs' : list alignment) :
  grows h h' → h' !! l = Some xs' → ∃ xs ys, h !! l = Some xs ∧ xs' = xs ++ ys.
Proof.
  intros [Hlen H] Hl.
  destruct (lookup_lt_is_Some_2 h l) as [xs Hxs].
  { rewrite Hlen. by eapply lookup_lt_Some. }
  destruct (H l xs Hxs) as [ys Hys]. exists xs, ys. split; [done|congruence].
Qed.

(** What one reassignment does when it does not raise. *)
Lemma reassign_OK (unique_alns total_alns : gmap string ref) (aln : list alignment)
    (h h' : store) (r r' : rng) :
  reassign unique_alns total_alns aln (h, r) = OK (h', r') →
  ∃ clusters c l i a xs,
    mapM cluster_of aln = OK clusters ∧
    choose unique_alns h clusters r = OK (c, r') ∧
    total_alns !! c = Some l ∧
    aln !! i = Some a ∧ cluster_of a = OK c ∧
    h !! l = Some xs ∧ h' = <[l := xs ++ [a]]> h.
Proof.
  unfold reassign. simpl. intros H.
  apply bind_OK in H as (clusters & Hcl & H).
  apply bind_OK in H as ([c r1] & Hch & H).
  apply bind_OK in H as (l & Hl%getitem_OK & H).
  apply bind_OK in H as (i & Hi & H).
  apply bind_OK in H as (a & Ha%index_OK & H).
  apply bind_OK in H as (h1 & Hh & [= <- <-]).
  unfold append in Hh. destruct (h !! l) as [xs|] eqn:Hxs; [|done]. injection Hh as <-.
  unfold list_index in Hi. destruct (list_find _ clusters) as [[j c']|] eqn:Hfind; [|done].
  injection Hi as ->. apply list_find_Some in Hfind as (Hj & -> & _).
  apply mapM_OK in Hcl as Hall.
  destruct (Forall2_lookup_l _ _ _ _ _ Hall Ha) as (c' & Hc' & Hca).
  exists clusters, c, l, i, a, xs. repeat split; try done. congruence.
Qed.

Lemma assign_non_unique_loop_grows (unique_alns total_alns : gmap string ref)
    (alns : list (list alignment)) :
  ∀ h r h' r',
    assign_non_unique_loop unique_alns total_alns alns (h, r) = OK (h', r') →
    grows h h'.
Proof.
  induction alns as [|aln alns IH]; intros h r h' r' H; simpl in H.
  - injection H as <- <-. apply grows_refl.
  - case_decide; [|by eapply IH].
    apply bind_OK in H as ([h1 r1] & Hstep & H).
    apply reassign_OK in Hstep as (? & ? & l & ? & a & xs & _ & _ & _ & _ & _ & Hxs & ->).
    eapply grows_trans; [by apply grows_append|by eapply IH].
Qed.

(** C10.  The dict returned by [assign_non_unique] holds, under every key,
    the very list object that [unique_alns] holds: the call leaves every
    list of [unique_alns] extended in place, and for each ambiguous group
    the record of the cluster chosen for it is among what has been added to
    the list of that cluster in [unique_alns]. *)
Theorem assign_non_unique_shares_lists (alns : list (list alignment))
    (unique_alns total_alns : gmap string ref) (h h' : store) (r r' : rng) :
  assign_non_unique alns unique_alns (h, r) = OK (total_alns, (h', r')) →
  (∀ c, total_alns !! c = unique_alns !! c) ∧
  grows h h' ∧
  ∀ aln, aln ∈ alns → (1 < length aln)%nat →
    ∃ a c l xs ys,
      a ∈ aln ∧ cluster_of a = OK c ∧ unique_alns !! c = Some l ∧
      h !! l = Some xs ∧ h' !! l = Some (xs ++ ys) ∧ a ∈ ys.
Proof.
  clear float_of_string.
  unfold assign_non_unique, copy. intros H.
  apply bind_OK in H as ([hf rf] & Hloop & [= <- <- <-]).
  split; [done|]. split; [by eapply assign_non_unique_loop_grows|].
  revert h r Hloop. induction alns as [|aln0 alns IH]; intros h r Hloop aln Hin Hlen.
  { by apply elem_of_nil in Hin. }
  simpl in Hloop. apply elem_of_cons in Hin as [->|Hin].
  - rewrite decide_True in Hloop by done.
    apply bind_OK in Hloop as ([h1 r1] & Hstep & Hloop).
    apply reassign_OK in Hstep as (cl & c & l & i & a & xs & _ & _ & Hl & Ha & Hc & Hxs & ->).
    apply assign_non_unique_loop_grows in Hloop as [_ Hgrow].
    destruct (Hgrow l (xs ++ [a])) as [ys Hys].
    { apply list_lookup_insert_eq. by eapply lookup_lt_Some. }
    exists a, c, l, xs, ([a] ++ ys). repeat split; try done.
    + by eapply list_elem_of_lookup_2.
    + by rewrite app_assoc.
    + set_solver.
  - assert (∃ h1 r1, grows h h1 ∧
              assign_non_unique_loop unique_alns unique_alns alns (h1, r1) = OK (hf, rf))
      as (h1 & r1 & Hg & Hrest).
    { case_decide; [|exists h, r; split; [apply grows_refl|done]].
      apply bind_OK in Hloop as ([h1 r1] & Hstep & Hloop). exists h1, r1. split; [|done].
      apply reassign_OK in Hstep as (? & ? & ? & ? & ? & ? & _ & _ & _ & _ & _ & ? & ->).
      by apply grows_append. }
    destruct (IH h1 r1 Hrest aln Hin Hlen) as (a & c & l & xs1 & ys & ? & ? & ? & Hxs1 & ? & ?).
    destruct (grows_inv h h1 l xs1 Hg Hxs1) as (xs & zs & ? & ->).
    exists a, c, l, xs, (zs ++ ys). repeat split; try done.
    + by rewrite app_assoc.
    + set_solver.
Qed.

(** ** Conservation of reads *)

Lemma contents_lookup (h : store) (d : gmap string ref) (c : string) :
  contents h d !! c = d !! c ≫= λ l, h !! l.
Proof. unfold contents. by rewrite lookup_omap. Qed.

Lemma contents_append (d : gmap string ref) (h : store) (c : string) (l : ref)
    (xs : list alignment) (a : alignment) :
  separate d h → d !! c = Some l → h !! l = Some xs →
  contents (<[l := xs ++ [a]]> h) d = <[c := xs ++ [a]]> (contents h d).
Proof.
  intros [Hin Hinj] Hc Hxs. apply map_eq. intros c'.
  rewrite contents_lookup. destruct (decide (c' = c)) as [->|Hne].
  - rewrite lookup_insert_eq, Hc. simpl.
    apply list_lookup_insert_eq. by eapply lookup_lt_Some.
  - rewrite lookup_insert_ne, contents_lookup by done.
    destruct (d !! c') as [l'|] eqn:Hc'; [simpl|done].
    apply list_lookup_insert_ne. intros ->. apply Hne. by eapply Hinj.
Qed.

Lemma values_insert {A} (m : gmap string (list A)) (c : string) (v v' : list A) :
  m !! c = Some v →
  ∃ rest, mjoin (values m) ≡ₚ v ++ rest ∧ mjoin (values (<[c := v']> m)) ≡ₚ v' ++ rest.
Proof.
  intros Hc. exists (mjoin (values (delete c m))). unfold values. split.
  - by rewrite <- (map_to_list_delete m c v Hc).
  - rewrite <- insert_delete_eq.
    by rewrite map_to_list_insert by apply lookup_delete_eq.
Qed.

Lemma assigned_append (d : gmap string ref) (h : store) (c : string) (l : ref)
    (xs : list alignment) (a : alignment) :
  separate d h → d !! c = Some l → h !! l = Some xs →
  assigned d (<[l := xs ++ [a]]> h) ≡ₚ a :: assigned d h.
Proof.
  intros Hsep Hc Hxs. unfold assigned. rewrite (contents_append d h c l xs a) by done.
  destruct (values_insert (contents h d) c xs (xs ++ [a])) as (rest & -> & ->).
  { by rewrite contents_lookup, Hc. }
  rewrite <- app_assoc. simpl. by rewrite <- Permutation_middle.
Qed.

Lemma separate_append (d : gmap string ref) (h : store) (l : ref) (xs : list alignment) :
  separate d h → separate d (<[l := xs]> h).
Proof. intros [? ?]. split; [|done]. intros. rewrite length_insert. eauto. Qed.

(** The lists made by [cluster_lists] are new, distinct and empty. *)
Lemma cluster_lists_separate (lines : list string) :
  ∀ d h d' h',
    separate d h → (∀ c l, d !! c = Some l → h !! l = Some []) →
    cluster_lists lines d h = OK (d', h') →
    separate d' h' ∧ (∀ c l, d' !! c = Some l → h' !! l = Some []).
Proof.
  induction lines as [|x lines IH]; intros d h d' h' Hsep Hemp H; simpl in H.
  - by injection H as <- <-.
  - apply bind_OK in H as (c & _ & H). destruct Hsep as [Hin Hinj].
    apply IH in H; [done| |].
    + split.
      * intros c' l'. rewrite lookup_insert, length_app. simpl.
        case_decide; [intros [= <-]; lia|]. intros ?%Hin. lia.
      * intros c1 c2 l'. rewrite !lookup_insert.
        repeat case_decide; subst; try done.
        -- intros [= <-] ?%Hin. lia.
        -- intros ?%Hin [= <-]. lia.
        -- eauto.
    + intros c' l'. rewrite lookup_insert. case_decide.
      * intros [= <-]. by rewrite lookup_app_r, Nat.sub_diag.
      * intros Hl'. rewrite lookup_app_l by eauto. eauto.
Qed.

Lemma assigned_empty (d : gmap string ref) (h : store) :
  (∀ c l, d !! c = Some l → h !! l = Some []) → assigned d h = [].
Proof.
  intros Hemp. unfold assigned, values.
  assert (Forall (λ xs, xs = []) (map_to_list (contents h d)).*2) as Hall.
  { apply Forall_forall. intros xs ((c & xs') & -> & Hin)%list_elem_of_fmap.
    apply elem_of_map_to_list in Hin. rewrite contents_lookup in Hin.
    destruct (d !! c) as [l|] eqn:Hc; [simpl in Hin|done].
    apply Hemp in Hc. simpl. congruence. }
  induction Hall as [|? ? -> _ IH]; [done|]. by simpl.
Qed.

Lemma assign_unique_loop_assigned (unique_alns : gmap string ref)
    (alns : list (list alignment)) :
  ∀ h h',
    separate unique_alns h →
    assign_unique_loop alns unique_alns h = OK h' →
    separate unique_alns h' ∧
    ∃ picks,
      Forall2 (λ aln a, a ∈ aln) (filter (λ aln, length aln = 1%nat) alns) picks ∧
      assigned unique_alns h' ≡ₚ picks ++ assigned unique_alns h.
Proof.
  induction alns as [|aln alns IH]; intros h h' Hsep H; simpl in H.
  - injection H as <-. split; [done|]. by exists [].
  - rewrite filter_cons. case_decide as Hlen.
    + apply bind_OK in H as (a & Ha%index_OK & H).
      apply bind_OK in H as (c & Hc & H).
      apply bind_OK in H as (l & Hl%getitem_OK & H).
      apply bind_OK in H as (h1 & Hh1 & H).
      unfold append in Hh1. destruct (h !! l) as [xs|] eqn:Hxs; [|done].
      injection Hh1 as <-.
      apply IH in H as (Hsep' & picks & Hpicks & Hperm); [|by apply separate_append].
      split; [done|]. exists (a :: picks). split.
      * constructor; [by eapply list_elem_of_lookup_2|done].
      * rewrite Hperm, (assigned_append unique_alns h c l xs a) by done.
        simpl. by rewrite <- Permutation_middle.
    + by apply IH in H.
Qed.

Lemma assign_non_unique_loop_assigned (unique_alns : gmap string ref)
    (alns : list (list alignment)) :
  ∀ h r h' r',
    separate unique_alns h →
    assign_non_unique_loop unique_alns (copy unique_alns) alns (h, r) = OK (h', r') →
    separate unique_alns h' ∧
    ∃ picks,
      Forall2 (λ aln a, a ∈ aln) (filter (λ aln, (1 < length aln)%nat) alns) picks ∧
      assigned unique_alns h' ≡ₚ picks ++ assigned unique_alns h.
Proof.
  induction alns as [|aln alns IH]; intros h r h' r' Hsep H; simpl in H.
  - injection H as <- <-. split; [done|]. by exists [].
  - rewrite filter_cons. case_decide as Hlen.
    + apply bind_OK in H as ([h1 r1] & Hstep & H).
      apply reassign_OK in Hstep as (cl & c & l & i & a & xs & _ & _ & Hl & Ha & _ & Hxs & ->).
      apply IH in H as (Hsep' & picks & Hpicks & Hperm); [|by apply separate_append].
      split; [done|]. exists (a :: picks). split.
      * constructor; [by eapply list_elem_of_lookup_2|done].
      * rewrite Hperm, (assigned_append unique_alns h c l xs a) by done.
        simpl. by rewrite <- Permutation_middle.
    + by apply IH in H.
Qed.

(** One pick per group, from the picks of the unique and of the ambiguous
    groups. *)
Lemma merge_picks (alns : list (list alignment)) :
  ∀ p1 p2,
    Forall (λ aln, aln ≠ []) alns →
    Forall2 (λ aln a, a ∈ aln) (filter (λ aln, length aln = 1%nat) alns) p1 →
    Forall2 (λ aln a, a ∈ aln) (filter (λ aln, (1 < length aln)%nat) alns) p2 →
    ∃ picks, Forall2 (λ aln a, a ∈ aln) alns picks ∧ picks ≡ₚ p2 ++ p1.
Proof.
  induction alns as [|aln alns IH]; intros p1 p2 Hne H1 H2.
  - apply Forall2_nil_inv_l in H1 as ->. apply Forall2_nil_inv_l in H2 as ->. by exists [].
  - apply Forall_cons in Hne as [Haln Hne]. rewrite filter_cons in H1, H2.
    destruct (decide (length aln = 1%nat)) as [Hlen|Hlen].
    + rewrite decide_False in H2 by lia.
      apply Forall2_cons_inv_l in H1 as (a & p1' & Ha & H1 & ->).
      destruct (IH p1' p2 Hne H1 H2) as (picks & Hp & Hperm).
      exists (a :: picks). split; [by constructor|].
      by rewrite Hperm, Permutation_middle.
    + rewrite decide_True in H2 by (destruct aln; simpl in *; [done|lia]).
      apply Forall2_cons_inv_l in H2 as (a & p2' & Ha & H2 & ->).
      destruct (IH p1 p2' Hne H1 H2) as (picks & Hp & Hperm).
      exists (a :: picks). split; [by constructor|]. simpl. by rewrite Hperm.
Qed.

(** C4.  After the unique assignment and the reassignment, the lists of the
    clusters hold, between them, exactly one record of every best-hit
    group, so that their lengths add up to the number of groups. *)
Theorem assignment_conservation (cluster_ids : list string) (alns : list (list alignment))
    (h0 h1 h2 : store) (unique_alns total_alns : gmap string ref) (r r2 : rng) :
  Forall (λ aln, aln ≠ []) alns →
  assign_unique cluster_ids alns h0 = OK (unique_alns, h1) →
  assign_non_unique alns unique_alns (h1, r) = OK (total_alns, (h2, r2)) →
  (∃ picks, Forall2 (λ aln a, a ∈ aln) alns picks ∧ assigned total_alns h2 ≡ₚ picks) ∧
  sum_list (length <$> values (contents h2 total_alns)) = length alns.
Proof.
  intros Hne Hu Hn. unfold assign_unique in Hu.
  apply bind_OK in Hu as ([d h] & Hd & Hu).
  apply bind_OK in Hu as (h1' & Hu & [= -> ->]).
  apply cluster_lists_separate in Hd as [Hsep Hemp]; [|by split|done].
  apply assign_unique_loop_assigned in Hu as (Hsep1 & p1 & Hp1 & Hperm1); [|done].
  rewrite (assigned_empty _ _ Hemp), app_nil_r in Hperm1.
  unfold assign_non_unique in Hn.
  apply bind_OK in Hn as ([h2' r2'] & Hn & [= <- <- <-]).
  apply assign_non_unique_loop_assigned in Hn as (Hsep2 & p2 & Hp2 & Hperm2); [|done].
  destruct (merge_picks alns p1 p2 Hne Hp1 Hp2) as (picks & Hpicks & Hperm).
  assert (Hall : assigned (copy unique_alns) h2' ≡ₚ picks).
  { unfold copy. by rewrite Hperm2, Hperm1, Hperm. }
  split; [by exists picks|].
  rewrite <- length_join. fold (assigned (copy unique_alns) h2').
  rewrite Hall. symmetry. by eapply Forall2_length.
Qed.

(** ** The normaliser *)

Lemma coverage_loop_OK (tgl : gmap string Z) (items : list (string * list alignment)) :
  ∀ init res,
    NoDup items.*1 →
    coverage_loop tgl items init = OK res →
    (∀ c alns, (c, alns) ∈ items → ∃ x, coverage tgl c alns = OK x ∧ res !! c = Some x) ∧
    (∀ c, c ∉ items.*1 → res !! c = init !! c).
Proof.
  induction items as [|[c alns] items IH]; intros init res Hnd H; simpl in H.
  - injection H as <-. split; [|done]. by intros ? ? ?%elem_of_nil.
  - apply NoDup_cons in Hnd as [Hc Hnd].
    apply bind_OK in H as (x & Hx & H). apply IH in H as [Hin Hout]; [|done].
    split.
    + intros c' alns' [[= -> ->]|?]%elem_of_cons; [|eauto].
      exists x. split; [done|]. by rewrite Hout, lookup_insert_eq.
    + intros c' Hc'. rewrite fmap_cons, not_elem_of_cons in Hc'. destruct Hc' as [? ?].
      by rewrite Hout, lookup_insert_ne.
Qed.

Lemma coverage_loop_total (tgl : gmap string Z) (items : list (string * list alignment)) :
  ∀ init,
    (∀ c alns, (c, alns) ∈ items → ∃ x, coverage tgl c alns = OK x) →
    ∃ res, coverage_loop tgl items init = OK res.
Proof.
  induction items as [|[c alns] items IH]; intros init Hall; simpl.
  - by exists init.
  - destruct (Hall c alns) as [x ->]; [left|]. simpl.
    apply IH. intros. apply Hall. by right.
Qed.

Lemma values_fmap {A B} (f : A → B) (m : gmap string A) : values (f <$> m) = f <$> values m.
Proof.
  unfold values. rewrite map_to_list_fmap, <- !list_fmap_compose.
  apply list_fmap_ext. by intros ? [? ?].
Qed.

Lemma Qsum_div (t : Q) (l : list Q) : (Qsum ((λ c, c / t)%Q <$> l) == Qsum l / t)%Q.
Proof.
  induction l as [|x l IH]; simpl.
  - unfold Qdiv. ring.
  - rewrite IH. unfold Qdiv. ring.
Qed.

Lemma normalize_counts_OK (cluster_alns : gmap string (list alignment))
    (tgl : gmap string Z) (ca : gmap string abundance) :
  normalize_counts cluster_alns tgl = OK ca →
  ∃ covs,
    coverage_loop tgl (map_to_list cluster_alns) ∅ = OK covs ∧
    ca = (λ c, {| cov := c;
                  rel_abun := if Qltb 0 (Qsum (values covs))
                              then (c / Qsum (values covs))%Q else 0%Q |}) <$> covs.
Proof.
  unfold normalize_counts. intros (covs & Hcovs & [= <-])%bind_OK. eauto.
Qed.

Lemma normalize_counts_dom (cluster_alns : gmap string (list alignment))
    (tgl : gmap string Z) (ca : gmap string abundance) :
  normalize_counts cluster_alns tgl = OK ca → dom ca = dom cluster_alns.
Proof.
  intros (covs & Hcovs & ->)%normalize_counts_OK.
  apply coverage_loop_OK in Hcovs as [Hin Hout]; [|apply NoDup_fst_map_to_list].
  rewrite dom_fmap_L. apply set_eq. intros c. rewrite !elem_of_dom.
  destruct (cluster_alns !! c) as [alns|] eqn:Hc.
  - apply elem_of_map_to_list in Hc. destruct (Hin c alns Hc) as (x & _ & ->).
    split; eauto.
  - rewrite Hout, lookup_empty; [done|].
    intros ((c' & alns) & -> & Hc')%list_elem_of_fmap.
    apply elem_of_map_to_list in Hc'. simpl in Hc. congruence.
Qed.

Lemma coverage_formula (tgl : gmap string Z) (c : string) (alns : list alignment) :
  (∀ a, a ∈ alns → is_Some (aln a)) →
  (alns ≠ [] → ∃ len, tgl !! c = Some len ∧ 0 < len) →
  ∃ x, coverage tgl c alns = OK x ∧
    match alns with
    | [] => x = 0%Q
    | _ => ∃ lens len,
             lengths alns lens ∧ tgl !! c = Some len ∧
             x = (inject_Z (sum_Z lens) / inject_Z len)%Q
    end.
Proof.
  intros Haln Hlen. unfold coverage. destruct alns as [|a alns]; [by exists 0%Q|].
  rewrite decide_True by (simpl; lia).
  destruct (mapM_total (λ a, getitem (aln a)) (a :: alns)) as [lens Hlens].
  { intros b [n Hn]%Haln. exists n. by rewrite Hn. }
  destruct Hlen as (len & Htgl & Hpos); [done|].
  rewrite Hlens, Htgl. simpl. rewrite decide_False by lia.
  eexists. split; [done|]. exists lens, len. repeat split; try done.
  apply mapM_OK in Hlens. eapply Forall2_impl; [done|].
  intros ? ? ?. by apply getitem_OK.
Qed.

(** C6.  Without rescaling, and when every cluster with assigned records
    has a positive total gene length, the normaliser returns a table with
    one entry per cluster of its input, whose coverage is the one of that
    cluster's records.  When the total coverage of the table is positive,
    the relative abundance of each cluster is its coverage over the total
    and the relative abundances add up to one; when the total coverage is
    zero, each relative abundance is zero. *)
Theorem normalize_counts_relative (cluster_alns : gmap string (list alignment))
    (tgl : gmap string Z) :
  (∀ c alns a, cluster_alns !! c = Some alns → a ∈ alns → is_Some (aln a)) →
  (∀ c alns, cluster_alns !! c = Some alns → alns ≠ [] →
     ∃ len, tgl !! c = Some len ∧ 0 < len) →
  ∃ ca,
    normalize_counts cluster_alns tgl = OK ca ∧
    dom ca = dom cluster_alns ∧
    (∀ c alns, cluster_alns !! c = Some alns →
       ∃ v, ca !! c = Some v ∧
         match alns with
         | [] => cov v = 0%Q
         | _ => ∃ lens len,
                  lengths alns lens ∧ tgl !! c = Some len ∧
                  cov v = (inject_Z (sum_Z lens) / inject_Z len)%Q
         end) ∧
    let total_cov := Qsum (cov <$> values ca) in
    ((0 < total_cov)%Q →
       (Qsum (rel_abun <$> values ca) == 1)%Q ∧
       ∀ c v, ca !! c = Some v → rel_abun v = (cov v / total_cov)%Q) ∧
    ((total_cov <= 0)%Q → ∀ c v, ca !! c = Some v → rel_abun v = 0%Q).
Proof.
  intros Haln Hlen.
  destruct (coverage_loop_total tgl (map_to_list cluster_alns) ∅) as [covs Hcovs].
  { intros c alns Hin%elem_of_map_to_list.
    destruct (coverage_formula tgl c alns) as (x & ? & _);
      [intros a; by apply (Haln c alns a)|by apply (Hlen c alns)|].
    eauto. }
  pose proof (coverage_loop_OK tgl _ _ _ (NoDup_fst_map_to_list cluster_alns) Hcovs)
    as [Hin Hout].
  set (t := Qsum (values covs)).
  set (ca := (λ c, {| cov := c; rel_abun := if Qltb 0 t then (c / t)%Q else 0%Q |}) <$> covs).
  assert (Hnorm : normalize_counts cluster_alns tgl = OK ca).
  { unfold normalize_counts. by rewrite Hcovs. }
  assert (Htotal : cov <$> values ca = values covs).
  { unfold ca. rewrite values_fmap, <- list_fmap_compose.
    rewrite (list_fmap_ext _ id (values covs)) by done. by rewrite list_fmap_id. }
  exists ca. split; [done|]. split; [by eapply normalize_counts_dom|]. split.
  - intros c alns Hc.
    destruct (coverage_formula tgl c alns) as (x & Hx & Hform);
      [intros a; by apply (Haln c alns a)|by apply (Hlen c alns)|].
    apply elem_of_map_to_list in Hc. destruct (Hin c alns Hc) as (x' & Hx' & Hres).
    assert (x' = x) as -> by congruence.
    unfold ca. rewrite lookup_fmap, Hres. simpl. eexists. split; [done|]. by simpl.
  - simpl. rewrite Htotal. fold t. split.
    + intros Ht. pose proof Ht as Hb%Qltb_true. split.
      * unfold ca. rewrite values_fmap, <- list_fmap_compose.
        rewrite (list_fmap_ext _ (λ c, c / t)%Q (values covs))
          by (by intros; simpl; rewrite Hb).
        rewrite Qsum_div. fold t. field. lra.
      * intros c v. unfold ca. rewrite lookup_fmap.
        intros (x & _ & ->)%fmap_Some. simpl. by rewrite Hb.
    + intros Ht c v. unfold ca. rewrite lookup_fmap.
      intros (x & _ & ->)%fmap_Some. simpl.
      assert (Qltb 0 t = false) as ->; [|done].
      by apply Qltb_false.
Qed.

(** C7.  When every cluster with assigned records has a positive total
    gene length, the normaliser returns, and the coverage of a cluster is
    the sum of the alignment lengths of its records divided by its total
    gene length; the coverage of a cluster without records is zero, and
    its gene length is not looked at. *)
Theorem normalize_counts_coverage (cluster_alns : gmap string (list alignment))
    (tgl : gmap string Z) :
  (∀ c alns a, cluster_alns !! c = Some alns → a ∈ alns → is_Some (aln a)) →
  (∀ c alns, cluster_alns !! c = Some alns → alns ≠ [] →
     ∃ len, tgl !! c = Some len ∧ 0 < len) →
  ∃ ca,
    normalize_counts cluster_alns tgl = OK ca ∧
    dom ca = dom cluster_alns ∧
    ∀ c alns, cluster_alns !! c = Some alns →
      ∃ v, ca !! c = Some v ∧
        match alns with
        | [] => cov v = 0%Q
        | _ => ∃ lens len,
                 lengths alns lens ∧ tgl !! c = Some len ∧
                 cov v = (inject_Z (sum_Z lens) / inject_Z len)%Q
        end.
Proof.
  intros Haln Hlen.
  assert (Hcov : ∀ c alns, cluster_alns !! c = Some alns →
            ∃ x, coverage tgl c alns = OK x ∧
              match alns with
              | [] => x = 0%Q
              | _ => ∃ lens len,
                       lengths alns lens ∧ tgl !! c = Some len ∧
                       x = (inject_Z (sum_Z lens) / inject_Z len)%Q
              end).
  { intros c alns Hc. unfold coverage. destruct alns as [|a alns]; [by exists 0%Q|].
    rewrite decide_True by (simpl; lia).
    destruct (mapM_total (λ a, getitem (aln a)) (a :: alns)) as [lens Hlens].
    { intros b [n Hn]%(Haln c _ _ Hc). exists n. by rewrite Hn. }
    destruct (Hlen c _ Hc) as (len & Htgl & Hpos); [done|].
    rewrite Hlens, Htgl. simpl. rewrite decide_False by lia.
    eexists. split; [done|]. exists lens, len. repeat split; try done.
    apply mapM_OK in Hlens. eapply Forall2_impl; [done|].
    intros ? ? ?. by apply getitem_OK. }
  destruct (coverage_loop_total tgl (map_to_list cluster_alns) ∅) as [covs Hcovs].
  { intros c alns Hin%elem_of_map_to_list. destruct (Hcov c alns Hin) as (x & ? & _). eauto. }
  pose proof (coverage_loop_OK tgl _ _ _ (NoDup_fst_map_to_list cluster_alns) Hcovs)
    as [Hin Hout].
  assert (Hnorm : normalize_counts cluster_alns tgl =
            OK ((λ c, {| cov := c;
                         rel_abun := if Qltb 0 (Qsum (values covs))
                                     then (c / Qsum (values covs))%Q else 0%Q |}) <$> covs)).
  { unfold normalize_counts. by rewrite Hcovs. }
  eexists. split; [done|]. split; [by eapply normalize_counts_dom|].
  intros c alns Hc. destruct (Hcov c alns Hc) as (x & Hx & Hform).
    apply elem_of_map_to_list in Hc. destruct (Hin c alns Hc) as (x' & Hx' & Hres).
    assert (x' = x) as -> by congruence.
    rewrite lookup_fmap, Hres. simpl. eexists. split; [done|]. simpl. done.
Qed.

(** The precondition of C7 is needed: a cluster with records and a total
    gene length of zero makes the normaliser raise. *)
Lemma normalize_counts_zero_length (cluster_alns : gmap string (list alignment))
    (tgl : gmap string Z) (c : string) (alns : list alignment) :
  cluster_alns !! c = Some alns → alns ≠ [] → tgl !! c = Some 0 →
  ∃ e, normalize_counts cluster_alns tgl = Raise e.
Proof.
  intros Hc Hne Htgl. destruct (normalize_counts cluster_alns tgl) as [ca|e] eqn:H; [|eauto].
  apply normalize_counts_OK in H as (covs & Hcovs & _).
  apply coverage_loop_OK in Hcovs as [Hin _]; [|apply NoDup_fst_map_to_list].
  apply elem_of_map_to_list in Hc. destruct (Hin c alns Hc) as (x & Hx & _).
  unfold coverage in Hx. rewrite decide_True in Hx by (destruct alns; simpl; [done|lia]).
  apply bind_OK in Hx as (lens & _ & Hx). rewrite Htgl in Hx. by simpl in Hx.
Qed.

(** ** The cluster registry and the abundance table *)

Lemma cluster_lists_dom (lines : list string) :
  ∀ d h d' h',
    cluster_lists lines d h = OK (d', h') →
    ∃ ids, registry lines = OK ids ∧ dom d' = dom d ∪ list_to_set ids.
Proof.
  clear float_of_string.
  unfold registry. induction lines as [|x lines IH]; intros d h d' h' H; simpl in H.
  - injection H as <- <-. exists []. split; [done|]. set_solver.
  - apply bind_OK in H as (c & Hc & H). apply IH in H as (ids & Hids & Hdom).
    exists (c :: ids). simpl. rewrite Hc, Hids. split; [done|].
    rewrite Hdom, dom_insert_L. set_solver.
Qed.

Lemma dom_contents (d : gmap string ref) (h : store) :
  separate d h → dom (contents h d) = dom d.
Proof.
  intros [Hin _]. apply set_eq. intros c. rewrite !elem_of_dom, contents_lookup.
  destruct (d !! c) as [l|] eqn:Hc; simpl.
  - split; [eauto|]. intros _. apply lookup_lt_is_Some_2. eauto.
  - split; by intros [? ?].
Qed.

Lemma keys_elements {A} (m : gmap string A) : (map_to_list m).*1 ≡ₚ elements (dom m).
Proof.
  apply NoDup_Permutation.
  - apply NoDup_fst_map_to_list.
  - apply NoDup_elements.
  - intros c. rewrite elem_of_elements, elem_of_dom, list_elem_of_fmap. split.
    + intros ((c' & x) & -> & Hin). apply elem_of_map_to_list in Hin. eauto.
    + intros [x Hx]. exists (c, x). split; [done|]. by apply elem_of_map_to_list.
Qed.

Lemma rescale_dom (bp : Z) (ags : Q) (ca ca' : gmap string abundance) :
  rescale bp ags ca = OK ca' → dom ca' = dom ca.
Proof.
  unfold rescale. intros H. repeat case_match; simplify_eq; [done|].
  by rewrite dom_fmap_L.
Qed.

Lemma assign_unique_OK (cluster_ids : list string) (alns : list (list alignment))
    (h0 h1 : store) (unique_alns : gmap string ref) :
  assign_unique cluster_ids alns h0 = OK (unique_alns, h1) →
  separate unique_alns h1 ∧
  ∃ ids, registry cluster_ids = OK ids ∧ dom unique_alns = list_to_set ids.
Proof.
  clear float_of_string.
  unfold assign_unique. intros H.
  apply bind_OK in H as ([d h] & Hd & H).
  apply bind_OK in H as (h' & Hu & [= -> ->]).
  pose proof Hd as (ids & Hids & Hdom)%cluster_lists_dom.
  apply cluster_lists_separate in Hd as [Hsep _]; [|by split|done].
  apply assign_unique_loop_assigned in Hu as [Hsep1 _]; [|done].
  split; [done|]. exists ids. split; [done|]. rewrite Hdom. set_solver.
Qed.

(** C5.  After the classification the dict of cluster alignments has a
    list, possibly empty, for every cluster of the registry, and the table
    that the pipeline writes has, after its header, one row for every
    cluster of the registry. *)
Theorem registry_clusters_have_rows (marker_cutoffs_file blastout cluster_ids gene_length
    : list string) (norm : option (Z * Q)) (r : rng) (alns : list (list alignment))
    (h0 h1 : store) (unique_alns : gmap string ref) (out : list string) :
  assign_unique cluster_ids alns h0 = OK (unique_alns, h1) →
  estimate_abundance marker_cutoffs_file blastout cluster_ids gene_length norm r = OK out →
  ∃ ids rows,
    registry cluster_ids = OK ids ∧
    dom unique_alns = list_to_set ids ∧
    (∀ c, c ∈ ids → ∃ l xs, unique_alns !! c = Some l ∧ h1 !! l = Some xs) ∧
    out = header :: (row <$> rows) ∧
    rows.*1 ≡ₚ elements (list_to_set ids : gset string).
Proof.
  intros (Hsep & ids & Hids & Hdom)%assign_unique_OK Hrun.
  unfold estimate_abundance in Hrun.
  apply bind_OK in Hrun as (best_hits & _ & Hrun).
  apply bind_OK in Hrun as ([u h] & Hu & Hrun).
  apply bind_OK in Hrun as ([t [h2 r2]] & Hn & Hrun).
  apply bind_OK in Hrun as (tgl & _ & Hrun).
  apply bind_OK in Hrun as (ca & Hca & Hrun).
  apply bind_OK in Hrun as (ca' & Hca' & [= <-]).
  apply assign_unique_OK in Hu as (Hsepu & ids' & Hids' & Hdomu).
  assert (ids' = ids) as -> by congruence.
  unfold assign_non_unique in Hn.
  apply bind_OK in Hn as ([h2' r2'] & Hn & [= <- <- <-]).
  apply assign_non_unique_loop_assigned in Hn as [Hsep2 _]; [|done].
  apply normalize_counts_dom in Hca. simpl in Hca. unfold copy in Hca.
  rewrite dom_contents, Hdomu in Hca by done.
  assert (Hdom' : dom ca' = list_to_set ids).
  { destruct norm as [[bp ags]|]; [|congruence].
    apply rescale_dom in Hca'. congruence. }
  exists ids, (map_to_list ca'). repeat split; try done.
  - intros c Hc. destruct Hsep as [Hin _].
    assert (c ∈ dom unique_alns) as [l Hl]%elem_of_dom by (rewrite Hdom; set_solver).
    destruct (lookup_lt_is_Some_2 h1 l) as [xs Hxs]; [eauto|]. eauto.
  - by rewrite keys_elements, Hdom'.
Qed.

(** * Further properties *)

(** ** The table of marker cutoffs *)

Lemma last_value_cons {A} (k : string) (e : string * A) (entries : list (string * A)) :
  last_value k (e :: entries) =
    match last_value k entries with
    | Some x => Some x
    | None => if decide (e.1 = k) then Some e.2 else None
    end.
Proof.
  unfold last_value. rewrite filter_cons. case_decide; [|by destruct (last _)].
  rewrite last_cons. by destruct (last _).
Qed.

Lemma get_markers_loop_OK (lines : list string) :
  ∀ init mc,
    get_markers_loop lines init = OK mc →
    ∃ entries,
      Forall2 marker_entry lines entries ∧
      ∀ m, mc !! m = match last_value m entries with
                     | Some x => Some x
                     | None => init !! m
                     end.
Proof.
  induction lines as [|line lines IH]; intros init mc H; simpl in H.
  - injection H as <-. exists []. split; [constructor|done].
  - destruct (split (rstrip line)) as [|marker_id [|min_pid [|? ?]]] eqn:Hsplit; try done.
    apply bind_OK in H as (x & Hx & H). apply IH in H as (entries & Hall & Hmc).
    exists ((marker_id, x) :: entries). split.
    + constructor; [|done]. exists min_pid. split; [done|].
      unfold float in Hx. by destruct (float_of_string min_pid); simplify_eq.
    + intros m. rewrite Hmc, last_value_cons. destruct (last_value m entries); [done|].
      simpl. rewrite lookup_insert. by case_decide.
Qed.

(** X1.  In the table that [get_markers] returns, a marker has the cutoff
    of the last line that names it, and a marker that no line names has
    none. *)
Theorem get_markers_table (lines : list string) (mc : gmap string Q) :
  get_markers lines = OK mc →
  ∃ entries,
    Forall2 marker_entry lines entries ∧
    ∀ m, mc !! m = last_value m entries.
Proof.
  intros (entries & Hall & Hmc)%get_markers_loop_OK. exists entries. split; [done|].
  intros m. rewrite Hmc, lookup_empty. by destruct (last_value m entries).
Qed.

(** X2.  [get_markers] raises nothing but [ValueError], and it raises
    exactly when a line is not a marker followed by a float: a blank line
    or a third column is enough. *)
Theorem get_markers_malformed (lines : list string) :
  match get_markers lines with
  | OK _ => Forall (λ line, ∃ e, marker_entry line e) lines
  | Raise e => e = ValueError ∧ Exists (λ line, ¬ ∃ e, marker_entry line e) lines
  end.
Proof.
  unfold get_markers. generalize (∅ : gmap string Q).
  induction lines as [|line lines IH]; intros init; simpl; [constructor|].
  destruct (split (rstrip line)) as [|marker_id [|min_pid [|? ?]]] eqn:Hsplit.
  1,2,4: split; [done|]; left; intros [e (tok & Hs & _)]; congruence.
  unfold float at 1. destruct (float_of_string min_pid) as [x|] eqn:Hx; simpl.
  - specialize (IH (<[marker_id := x]> init)).
    destruct (get_markers_loop lines _) as [mc|e].
    + constructor; [|done]. exists (marker_id, x), min_pid. by rewrite Hsplit.
    + destruct IH as [-> IH]. split; [done|]. by right.
  - split; [done|]. left. intros [e (tok & Hs & Hf)]. congruence.
Qed.

(** ** The groups of the best-hit resolver *)

Lemma top_scoring_nil_inv (l : list alignment) : top_scoring l ≠ [] → l ≠ [].
Proof. by intros H ->. Qed.

Lemma find_best_hits_resolved (marker_cutoffs_file blastout : list string)
    (mc : gmap string Q) (recs : list alignment) (groups : list (list alignment)) :
  get_markers marker_cutoffs_file = OK mc →
  parse_blast blastout = OK recs →
  Forall (λ a, is_Some (score a)) recs →
  find_best_hits marker_cutoffs_file blastout = OK groups →
  ∃ bh, resolved mc recs bh ∧ groups = values bh.
Proof.
  intros Hmc Hrecs Hsc Hfind. unfold find_best_hits in Hfind.
  rewrite Hmc in Hfind. simpl in Hfind.
  apply bind_OK in Hfind as (bh & Hloop & [= <-]). exists bh. split; [|done].
  by apply (find_best_hits_loop_resolved mc blastout [] recs ∅ bh).
Qed.

(** X3.  The resolver returns no group twice, no empty group and no group
    for a query without an accepted record: its groups are the best-hit
    groups of the queries that have an accepted record, one each. *)
Theorem find_best_hits_only_accepted (marker_cutoffs_file blastout : list string)
    (mc : gmap string Q) (recs : list alignment) (groups : list (list alignment)) :
  get_markers marker_cutoffs_file = OK mc →
  parse_blast blastout = OK recs →
  Forall (λ a, is_Some (score a)) recs →
  find_best_hits marker_cutoffs_file blastout = OK groups →
  NoDup groups ∧
  ∀ g, g ∈ groups ↔ ∃ q, accepted mc recs q ≠ [] ∧ g = best_hit_group mc recs q.
Proof.
  intros Hmc Hrecs Hsc Hfind.
  destruct (find_best_hits_resolved _ _ _ _ _ Hmc Hrecs Hsc Hfind) as (bh & Hres & ->).
  assert (Hkey : ∀ q g, bh !! q = Some g → group_query g = Some q).
  { intros q g Hg. specialize (Hres q). rewrite Hg in Hres. destruct Hres as [? ->].
    by apply best_hit_group_query. }
  split.
  - unfold values. apply NoDup_fmap_2_strong; [|apply NoDup_map_to_list].
    intros [q1 g1] [q2 g2] H1%elem_of_map_to_list H2%elem_of_map_to_list Heq.
    simpl in Heq. subst g2. apply Hkey in H1, H2. congruence.
  - intros g. unfold values. rewrite list_elem_of_fmap. split.
    + intros ((q & g') & -> & Hin%elem_of_map_to_list). exists q.
      specialize (Hres q). rewrite Hin in Hres. destruct Hres as [Hne ->].
      split; [|done]. by apply top_scoring_nil_inv.
    + intros (q & Hacc & ->). specialize (Hres q).
      destruct (bh !! q) as [g|] eqn:Hg; [|done]. destruct Hres as [_ Heq].
      exists (q, g). split; [by rewrite Heq|]. by apply elem_of_map_to_list.
Qed.

Lemma best_hit_cutoff (mc : gmap string Q) (bh bh' : gmap string (list alignment))
    (a : alignment) :
  best_hit mc bh a = OK bh' →
  ∃ t p cutoff,
    target a = Some t ∧ pid a = Some p ∧ mc !! final (split_on "_" t) = Some cutoff.
Proof.
  unfold best_hit. intros H.
  apply bind_OK in H as (t & Ht%getitem_OK & H).
  apply bind_OK in H as (p & Hp%getitem_OK & H).
  apply bind_OK in H as (cutoff & Hc%getitem_OK & _). by exists t, p, cutoff.
Qed.

(** X4.  The resolver never passes over a line for want of data: when it
    returns, every line of the input, also one that it rejects, gave a
    record with a target, an identity and a cutoff for the marker of the
    target. *)
Theorem find_best_hits_needs_cutoffs (marker_cutoffs_file blastout : list string)
    (groups : list (list alignment)) :
  find_best_hits marker_cutoffs_file blastout = OK groups →
  ∃ mc,
    get_markers marker_cutoffs_file = OK mc ∧
    Forall (λ line, ∃ a t p cutoff,
              parse_line line = OK a ∧ target a = Some t ∧ pid a = Some p ∧
              mc !! final (split_on "_" t) = Some cutoff) blastout.
Proof.
  unfold find_best_hits. intros H.
  apply bind_OK in H as (mc & Hmc & H). apply bind_OK in H as (bh & Hloop & _).
  exists mc. split; [done|]. clear Hmc groups. revert Hloop. generalize (∅ : gmap string (list alignment)).
  induction blastout as [|line lines IH]; intros init Hloop; [constructor|].
  simpl in Hloop.
  apply bind_OK in Hloop as (a & Ha & Hloop). apply bind_OK in Hloop as (bh1 & Hstep & Hloop).
  constructor; [|by eapply IH].
  apply best_hit_cutoff in Hstep as (t & p & cutoff & ? & ? & ?).
  by exists a, t, p, cutoff.
Qed.

(** ** The lists of the unique reads *)

Lemma assign_unique_loop_lists (unique_alns : gmap string ref)
    (alns : list (list alignment)) :
  ∀ h h',
    separate unique_alns h →
    assign_unique_loop alns unique_alns h = OK h' →
    ∀ c l xs, unique_alns !! c = Some l → h !! l = Some xs →
      h' !! l = Some (xs ++ unique_records alns c).
Proof.
  induction alns as [|aln alns IH]; intros h h' Hsep H c l xs Hc Hxs; simpl in H.
  - injection H as <-. unfold unique_records. simpl. by rewrite app_nil_r.
  - unfold unique_records. rewrite bind_cons. fold (unique_records alns c).
    case_decide as Hlen.
    + destruct aln as [|a [|? ?]]; try done.
      apply bind_OK in H as (a' & [= <-]%index_OK & H).
      apply bind_OK in H as (c0 & Hc0 & H).
      apply bind_OK in H as (l0 & Hl0%getitem_OK & H).
      apply bind_OK in H as (h1 & Hh1 & H).
      unfold append in Hh1. destruct (h !! l0) as [xs0|] eqn:Hxs0; [|done].
      injection Hh1 as <-. rewrite Hc0.
      case_decide as Heq.
      * injection Heq as ->. assert (l0 = l) as -> by congruence.
        assert (xs0 = xs) as -> by congruence.
        rewrite app_assoc. eapply IH; [by apply separate_append|done|done|].
        apply list_lookup_insert_eq. by eapply lookup_lt_Some.
      * simpl. eapply IH; [by apply separate_append|done|done|].
        rewrite list_lookup_insert_ne; [done|].
        intros ->. apply Heq. f_equal. destruct Hsep as [_ Hinj]. by eapply Hinj.
    + assert (match aln with [a] => if decide (cluster_of a = OK c) then [a] else [] | _ => [] end = [])
        as -> by (by destruct aln as [|a [|? ?]]).
      simpl. by eapply IH.
Qed.

(** X5.  After [assign_unique], the list of a cluster holds the records of
    the one-record groups of that cluster, in the order of the groups, and
    nothing else. *)
Theorem assign_unique_lists (cluster_ids : list string) (alns : list (list alignment))
    (h0 h1 : store) (unique_alns : gmap string ref) :
  assign_unique cluster_ids alns h0 = OK (unique_alns, h1) →
  ∀ c, c ∈ dom unique_alns →
    contents h1 unique_alns !! c = Some (unique_records alns c).
Proof.
  unfold assign_unique. intros H c [l Hl]%elem_of_dom.
  apply bind_OK in H as ([d h] & Hd & H).
  apply bind_OK in H as (h' & Hu & [= -> ->]).
  apply cluster_lists_separate in Hd as [Hsep Hemp]; [|by split|done].
  rewrite contents_lookup, Hl. simpl.
  by apply (assign_unique_loop_lists _ _ _ _ Hsep Hu c l [] Hl (Hemp c l Hl)).
Qed.

Lemma cluster_lists_total (lines : list string) (ids : list string) :
  registry lines = OK ids →
  ∀ d h, ∃ d' h', cluster_lists lines d h = OK (d', h').
Proof.
  unfold registry. revert ids.
  induction lines as [|x lines IH]; intros ids H d h; simpl in *; [eauto|].
  apply bind_OK in H as (c & -> & H). apply bind_OK in H as (ids' & H & _). simpl.
  by eapply IH.
Qed.

Lemma assign_unique_loop_total (unique_alns : gmap string ref)
    (alns : list (list alignment)) :
  Forall (λ aln, ∀ a, aln = [a] → ∃ c, cluster_of a = OK c ∧ c ∈ dom unique_alns) alns →
  ∀ h, separate unique_alns h → ∃ h', assign_unique_loop alns unique_alns h = OK h'.
Proof.
  induction 1 as [|aln alns Haln _ IH]; intros h Hsep; simpl; [eauto|].
  case_decide as Hlen; [|by apply IH].
  destruct aln as [|a [|? ?]]; try done. simpl.
  destruct (Haln a eq_refl) as (c & -> & [l Hl]%elem_of_dom). simpl. rewrite Hl. simpl.
  destruct (lookup_lt_is_Some_2 h l) as [xs Hxs]; [destruct Hsep; eauto|].
  unfold append. rewrite Hxs. simpl. apply IH. by apply separate_append.
Qed.

Lemma assign_unique_loop_registered (unique_alns : gmap string ref)
    (alns : list (list alignment)) :
  ∀ h h',
    assign_unique_loop alns unique_alns h = OK h' →
    Forall (λ aln, ∀ a, aln = [a] → ∃ c, cluster_of a = OK c ∧ c ∈ dom unique_alns) alns.
Proof.
  induction alns as [|aln alns IH]; intros h h' H; simpl in H; [constructor|].
  case_decide as Hlen.
  - apply bind_OK in H as (a & Ha%index_OK & H).
    apply bind_OK in H as (c & Hc & H).
    apply bind_OK in H as (l & Hl%getitem_OK & H).
    apply bind_OK in H as (h1 & _ & H). constructor; [|by eapply IH].
    intros a' ->. injection Ha as <-. exists c. split; [done|]. by apply elem_of_dom.
  - constructor; [|by eapply IH]. by intros a ->.
Qed.

(** X6.  [assign_unique] returns exactly when the registry can be read and
    the cluster of every uniquely mapped read is in it; otherwise it
    raises. *)
Theorem assign_unique_returns (cluster_ids : list string) (alns : list (list alignment))
    (h0 : store) :
  (∃ unique_alns h1, assign_unique cluster_ids alns h0 = OK (unique_alns, h1)) ↔
  ∃ ids,
    registry cluster_ids = OK ids ∧
    Forall (λ aln, ∀ a, aln = [a] → ∃ c, cluster_of a = OK c ∧ c ∈ ids) alns.
Proof.
  split.
  - intros (u & h1 & H). pose proof H as (_ & ids & Hids & Hdom)%assign_unique_OK.
    exists ids. split; [done|]. unfold assign_unique in H.
    apply bind_OK in H as ([d h] & Hd & H). apply bind_OK in H as (h' & Hu & [= -> ->]).
    apply assign_unique_loop_registered in Hu.
    eapply Forall_impl; [done|]. intros aln Haln a Ha.
    destruct (Haln a Ha) as (c & ? & Hc). exists c. split; [done|].
    rewrite Hdom in Hc. by apply elem_of_list_to_set in Hc.
  - intros (ids & Hids & Hall). unfold assign_unique.
    destruct (cluster_lists_total _ _ Hids ∅ h0) as (d & h & Hd). rewrite Hd. simpl.
    pose proof Hd as (ids' & Hids' & Hdom)%cluster_lists_dom.
    assert (ids' = ids) as -> by congruence.
    apply cluster_lists_separate in Hd as [Hsep _]; [|by split|done].
    destruct (assign_unique_loop_total d alns) with (h := h) as [h' Hh']; [|done|].
    + eapply Forall_impl; [done|]. intros aln Haln a Ha.
      destruct (Haln a Ha) as (c & ? & Hc). exists c. split; [done|].
      rewrite Hdom, elem_of_union, elem_of_list_to_set. by right.
    + rewrite Hh'. simpl. eauto.
Qed.

(** ** The reassignment of the ambiguous reads *)

Lemma assign_non_unique_loop_skip (unique_alns total_alns : gmap string ref)
    (alns : list (list alignment)) (st : store * rng) :
  Forall (λ aln, (length aln ≤ 1)%nat) alns →
  assign_non_unique_loop unique_alns total_alns alns st = OK st.
Proof.
  induction 1 as [|aln alns Hlen _ IH]; [done|]. simpl.
  by rewrite decide_False by lia.
Qed.

(** X7.  Without an ambiguous group, [assign_non_unique] changes no list
    and draws no random number. *)
Theorem assign_non_unique_unique_only (alns : list (list alignment))
    (unique_alns : gmap string ref) (st : store * rng) :
  Forall (λ aln, (length aln ≤ 1)%nat) alns →
  assign_non_unique alns unique_alns st = OK (unique_alns, st).
Proof.
  intros Hall. unfold assign_non_unique, copy.
  by rewrite assign_non_unique_loop_skip.
Qed.

Lemma sample_OK (population : list string) (g : generator) :
  population ≠ [] →
  ∃ j c, population !! j = Some c ∧ sample population g = OK (c, (random g).2).
Proof.
  intros Hne. unfold sample. destruct (random g) as [u g'] eqn:Hg. cbv beta iota zeta.
  assert (Hu : (0 <= u)%Q ∧ (u < 1)%Q).
  { unfold random in Hg. injection Hg as <- _. apply uniform_range. }
  set (n := Z.of_nat (length population)).
  assert (Hn : 0 < n) by (destruct population; simpl in *; [done|lia]).
  assert (Hnq : (0 < inject_Z n)%Q) by (change 0%Q with (inject_Z 0); by rewrite <- Zlt_Qlt).
  set (x := (u * inject_Z n)%Q).
  assert (Hlo : 0 ≤ Qfloor x).
  { change 0 with (Qfloor 0). apply Qfloor_resp_le. unfold x. apply Qmult_le_0_compat; lra. }
  assert (Hhi : Qfloor x < n).
  { rewrite Zlt_Qlt. eapply Qle_lt_trans; [apply Qfloor_le|]. unfold x.
    rewrite <- (Qmult_1_l (inject_Z n)) at 2. apply Qmult_lt_compat_r; lra. }
  destruct (lookup_lt_is_Some_2 population (Z.to_nat (Qfloor x))) as [c Hc]; [lia|].
  exists (Z.to_nat (Qfloor x)), c. split; [done|]. fold n. fold x.
  unfold index. by rewrite Hc.
Qed.

(** What [choose] does when the weights can be read. *)
Lemma choose_OK (unique_alns : gmap string ref) (h : store) (clusters : list string)
    (r : rng) (counts : list nat) :
  weights unique_alns h clusters = OK counts →
  clusters ≠ [] →
  ∃ i c n,
    clusters !! i = Some c ∧ counts !! i = Some n ∧
    (sum_list counts ≠ 0%nat → n ≠ 0%nat) ∧
    choose unique_alns h clusters r =
      OK (c, if decide (sum_list counts = 0%nat)
             then {| py_random := (random (py_random r)).2; np_random := np_random r |}
             else {| py_random := py_random r; np_random := (random (np_random r)).2 |}).
Proof.
  intros Hw Hne. unfold choose. rewrite Hw. simpl.
  pose proof Hw as Hall%mapM_OK. pose proof (Forall2_length _ _ _ Hall) as Hlen.
  case_decide as Hsum.
  - destruct (sample_OK clusters (py_random r) Hne) as (j & c & Hj & ->). simpl.
    destruct (Forall2_lookup_l _ _ _ _ _ Hall Hj) as (n & Hn & _).
    exists j, c, n. by repeat split.
  - destruct (choice_nonzero clusters counts (np_random r) Hlen Hsum)
      as (i & c & n & Hc & Hn & Hnz & ->). simpl.
    exists i, c, n. by repeat split.
Qed.

(** X8.  The cluster chosen for an ambiguous read is one of its
    candidates, and when some candidate has unique reads the chosen one
    has: a cluster without unique reads is only ever chosen when no
    candidate has any. *)
Theorem choose_candidate (unique_alns : gmap string ref) (h : store)
    (clusters : list string) (r r' : rng) (counts : list nat) (c : string) :
  weights unique_alns h clusters = OK counts →
  choose unique_alns h clusters r = OK (c, r') →
  ∃ i n, clusters !! i = Some c ∧ counts !! i = Some n ∧
         (sum_list counts ≠ 0%nat → n ≠ 0%nat).
Proof.
  intros Hw Hch. destruct clusters as [|c0 clusters].
  { unfold choose in Hch. rewrite Hw in Hch. injection Hw as <-. simpl in Hch.
    unfold sample in Hch. by destruct (random (py_random r)). }
  destruct (choose_OK unique_alns h (c0 :: clusters) r counts Hw) as (i & c' & n & ? & ? & ? & Heq);
    [done|].
  rewrite Heq in Hch. injection Hch as <- _. by exists i, n.
Qed.

Lemma reassign_draw (unique_alns total_alns : gmap string ref) (aln : list alignment)
    (h h' : store) (r r' : rng) :
  reassign unique_alns total_alns aln (h, r) = OK (h', r') →
  tape (py_random r') = tape (py_random r) ∧
  tape (np_random r') = tape (np_random r) ∧
  (pos (py_random r') + pos (np_random r') = S (pos (py_random r) + pos (np_random r)))%nat.
Proof.
  intros (clusters & c & l & i & a & xs & Hcl & Hch & _ & Ha & _)%reassign_OK.
  assert (clusters ≠ []) as Hne.
  { apply mapM_OK in Hcl. intros ->. apply Forall2_nil_inv_r in Hcl as ->. done. }
  destruct (weights unique_alns h clusters) as [counts|e] eqn:Hw.
  - destruct (choose_OK unique_alns h clusters r counts Hw Hne) as (? & ? & ? & _ & _ & _ & Heq).
    rewrite Heq in Hch. injection Hch as _ <-. case_decide; simpl; repeat split; lia.
  - unfold choose in Hch. by rewrite Hw in Hch.
Qed.

(** X9.  Every ambiguous read costs one random number, from one of the
    two generators: a call of [assign_non_unique] advances them, together,
    by the number of groups of more than one record. *)
Theorem assign_non_unique_draws (alns : list (list alignment))
    (unique_alns total_alns : gmap string ref) (h h' : store) (r r' : rng) :
  assign_non_unique alns unique_alns (h, r) = OK (total_alns, (h', r')) →
  tape (py_random r') = tape (py_random r) ∧
  tape (np_random r') = tape (np_random r) ∧
  (pos (py_random r') + pos (np_random r') =
   pos (py_random r) + pos (np_random r) + length (filter (λ aln, 1 < length aln) alns))%nat.
Proof.
  unfold assign_non_unique, copy. intros H.
  apply bind_OK in H as ([hf rf] & Hloop & [= _ <- <-]).
  revert h r Hloop. induction alns as [|aln alns IH]; intros h r Hloop; simpl in Hloop.
  - injection Hloop as <- <-. simpl. repeat split; lia.
  - rewrite filter_cons. case_decide.
    + apply bind_OK in Hloop as ([h1 r1] & Hstep & Hloop).
      apply reassign_draw in Hstep as (Hpy & Hnp & Hpos).
      apply IH in Hloop as (-> & -> & ->). simpl. repeat split; try done. lia.
    + by apply IH in Hloop.
Qed.

Lemma weights_total (unique_alns : gmap string ref) (h : store) (clusters : list string) :
  separate unique_alns h →
  (∀ c, c ∈ clusters → c ∈ dom unique_alns) →
  ∃ counts, weights unique_alns h clusters = OK counts.
Proof.
  intros [Hin _] Hdom. apply mapM_total. intros c [l Hl]%Hdom%elem_of_dom.
  destruct (lookup_lt_is_Some_2 h l) as [xs Hxs]; [eauto|].
  exists (length xs). apply len_at_OK. eauto.
Qed.

Lemma reassign_total (unique_alns : gmap string ref) (aln : list alignment)
    (h : store) (r : rng) :
  separate unique_alns h →
  aln ≠ [] →
  (∀ a, a ∈ aln → ∃ c, cluster_of a = OK c ∧ c ∈ dom unique_alns) →
  ∃ h' r', reassign unique_alns unique_alns aln (h, r) = OK (h', r') ∧
           separate unique_alns h'.
Proof.
  intros Hsep Hne Hall.
  destruct (mapM_total cluster_of aln) as [clusters Hcl].
  { intros a (c & ? & _)%Hall. eauto. }
  pose proof Hcl as Hcl2%mapM_OK.
  assert (Hdom : ∀ c, c ∈ clusters → c ∈ dom unique_alns).
  { intros c [i Hi]%list_elem_of_lookup.
    destruct (Forall2_lookup_r _ _ _ _ _ Hcl2 Hi) as (a & Ha & Hca).
    destruct (Hall a) as (c' & ? & ?); [by eapply list_elem_of_lookup_2|]. congruence. }
  destruct (weights_total unique_alns h clusters Hsep Hdom) as [counts Hw].
  assert (clusters ≠ []) as Hne'.
  { intros ->. apply Forall2_nil_inv_r in Hcl2. done. }
  destruct (choose_OK unique_alns h clusters r counts Hw Hne') as (i & c & n & Hc & _ & _ & Hch).
  assert (c ∈ clusters) as Hin by (by eapply list_elem_of_lookup_2).
  pose proof (Hdom c Hin) as [l Hl]%elem_of_dom.
  destruct (list_find_elem_of (λ y, y = c) clusters c Hin eq_refl) as [[j c'] Hfind].
  pose proof Hfind as (Hj & -> & _)%list_find_Some.
  destruct (Forall2_lookup_r _ _ _ _ _ Hcl2 Hj) as (a & Ha & _).
  destruct (lookup_lt_is_Some_2 h l) as [xs Hxs]; [destruct Hsep; eauto|].
  eexists _, _. split.
  - unfold reassign. rewrite Hcl. simpl. rewrite Hch. simpl. rewrite Hl. simpl.
    unfold list_index. rewrite Hfind. simpl. unfold index. rewrite Ha. simpl.
    unfold append. rewrite Hxs. simpl. done.
  - by apply separate_append.
Qed.

Lemma reassign_registered (unique_alns total_alns : gmap string ref) (aln : list alignment)
    (h h' : store) (r r' : rng) :
  reassign unique_alns total_alns aln (h, r) = OK (h', r') →
  ∀ a, a ∈ aln → ∃ c, cluster_of a = OK c ∧ c ∈ dom unique_alns.
Proof.
  intros (clusters & c & l & i & a0 & xs & Hcl & Hch & _)%reassign_OK a [k Hk]%list_elem_of_lookup.
  apply mapM_OK in Hcl.
  destruct (Forall2_lookup_l _ _ _ _ _ Hcl Hk) as (ca & Hca & Hcof).
  exists ca. split; [done|].
  unfold choose in Hch. destruct (weights unique_alns h clusters) as [counts|] eqn:Hw; [|done].
  apply mapM_OK in Hw. destruct (Forall2_lookup_l _ _ _ _ _ Hw Hca) as (n & _ & Hn).
  apply len_at_OK in Hn as (l' & ? & Hl' & _). by apply elem_of_dom.
Qed.

(** X10.  With the lists as [assign_unique] leaves them, the reassignment
    returns exactly when every record of every ambiguous group has a
    cluster of the registry: a candidate that is not registered makes it
    raise, chosen or not. *)
Theorem assign_non_unique_returns (alns : list (list alignment))
    (unique_alns : gmap string ref) (h : store) (r : rng) :
  separate unique_alns h →
  (∃ total_alns st, assign_non_unique alns unique_alns (h, r) = OK (total_alns, st)) ↔
  Forall (λ aln, (1 < length aln)%nat →
                 ∀ a, a ∈ aln → ∃ c, cluster_of a = OK c ∧ c ∈ dom unique_alns) alns.
Proof.
  intros Hsep. unfold assign_non_unique, copy. split.
  - intros (t & [hf rf] & H). apply bind_OK in H as (st & Hloop & _). clear t hf rf.
    revert h r Hsep Hloop. induction alns as [|aln alns IH]; intros h r Hsep Hloop; [constructor|].
    simpl in Hloop. case_decide as Hlen.
    + apply bind_OK in Hloop as ([h1 r1] & Hstep & Hloop). constructor.
      * intros _. by eapply reassign_registered.
      * apply reassign_OK in Hstep as Hs.
        destruct Hs as (? & ? & ? & ? & ? & ? & _ & _ & _ & _ & _ & _ & ->).
        eapply IH; [|done]. by apply separate_append.
    + constructor; [done|]. by eapply IH.
  - intros Hall. enough (∃ st, assign_non_unique_loop unique_alns unique_alns alns (h, r) = OK st)
      as [st ->] by (simpl; eauto).
    revert h r Hsep. induction Hall as [|aln alns Haln _ IH]; intros h r Hsep; simpl; [eauto|].
    case_decide as Hlen; [|by apply IH].
    destruct (reassign_total unique_alns aln h r Hsep) as (h1 & r1 & -> & Hsep1).
    + destruct aln; simpl in *; [lia|done].
    + by apply Haln.
    + simpl. by apply IH.
Qed.

(** ** The table of gene lengths *)

Lemma cluster_zeros_OK (lines : list string) :
  ∀ d d',
    cluster_zeros lines d = OK d' →
    ∃ ids, registry lines = OK ids ∧
      ∀ c, d' !! c = if decide (c ∈ ids) then Some 0 else d !! c.
Proof.
  unfold registry. induction lines as [|x lines IH]; intros d d' H; simpl in H.
  - injection H as <-. exists []. split; [done|]. intros c. by rewrite decide_False by apply not_elem_of_nil.
  - apply bind_OK in H as (c0 & Hc0 & H). apply IH in H as (ids & Hids & Hd').
    exists (c0 :: ids). simpl. rewrite Hc0, Hids. split; [done|].
    intros c. rewrite Hd'. destruct (decide (c ∈ ids)) as [Hin|Hin].
    + rewrite decide_True; [done|by right].
    + rewrite lookup_insert. destruct (decide (c0 = c)) as [->|Hne].
      * rewrite decide_True; [done|by left].
      * rewrite decide_False; [done|]. rewrite elem_of_cons. by intros [->|?].
Qed.

Lemma cluster_zeros_total (lines : list string) (ids : list string) :
  registry lines = OK ids → ∀ d, ∃ d', cluster_zeros lines d = OK d'.
Proof.
  unfold registry. revert ids.
  induction lines as [|x lines IH]; intros ids H d; simpl in *; [eauto|].
  apply bind_OK in H as (c & -> & H). apply bind_OK in H as (ids' & H & _). simpl.
  by eapply IH.
Qed.

Lemma total_of_cons (k : string) (e : string * Z) (entries : list (string * Z)) :
  total_of k (e :: entries) = (if decide (e.1 = k) then e.2 else 0) + total_of k entries.
Proof. unfold total_of. rewrite filter_cons. by case_decide. Qed.

Lemma gene_lengths_loop_OK (lines : list string) :
  ∀ init tgl,
    gene_lengths_loop lines init = OK tgl →
    ∃ entries,
      Forall2 gene_entry lines entries ∧
      Forall (λ e, e.1 ∈ dom init) entries ∧
      ∀ c, tgl !! c = (λ x, x + total_of c entries) <$> init !! c.
Proof.
  induction lines as [|line lines IH]; intros init tgl H; simpl in H.
  - injection H as <-. exists []. repeat split; [constructor|constructor|].
    intros c. unfold total_of. simpl. destruct (init !! c); simpl; [f_equal; lia|done].
  - apply bind_OK in H as (gene & Hgene & H).
    apply bind_OK in H as (field & Hfield & H).
    apply bind_OK in H as (n & Hn & H).
    apply bind_OK in H as (total & Htotal%getitem_OK & H).
    apply IH in H as (entries & Hall & Hdom & Htgl).
    exists ((first (split_on "_" gene), n) :: entries). repeat split.
    + constructor; [|done]. by exists gene, field.
    + constructor; [simpl; by apply elem_of_dom|].
      eapply Forall_impl; [done|]. intros e. rewrite dom_insert_L.
      rewrite elem_of_union, elem_of_singleton, !elem_of_dom. intros [->|?]; eauto.
    + intros c. rewrite Htgl, total_of_cons, lookup_insert. simpl. case_decide as Hc.
      * subst c. rewrite Htotal. simpl. f_equal. lia.
      * destruct (init !! c); simpl; [f_equal; lia|done].
Qed.

Lemma gene_lengths_loop_total (lines : list string) (entries : list (string * Z)) :
  Forall2 gene_entry lines entries →
  ∀ init, Forall (λ e, e.1 ∈ dom init) entries →
    ∃ tgl, gene_lengths_loop lines init = OK tgl.
Proof.
  induction 1 as [|line e lines entries (gene & field & Hg & He & Hf & Hn) _ IH];
    intros init Hdom; simpl; [eauto|].
  apply Forall_cons in Hdom as [[x Hx]%elem_of_dom Hdom].
  rewrite Hg, Hf. simpl. rewrite Hn. simpl. rewrite <- He, Hx. simpl.
  apply IH. eapply Forall_impl; [done|]. intros e'. rewrite dom_insert_L.
  rewrite elem_of_union. by right.
Qed.

(** X11.  The table that [read_gene_lengths] returns has the clusters of
    the registry for keys, and gives each the sum of the lengths on the
    lines of its genes: zero for a cluster without a line. *)
Theorem read_gene_lengths_totals (cluster_ids gene_length : list string)
    (tgl : gmap string Z) :
  read_gene_lengths cluster_ids gene_length = OK tgl →
  ∃ ids entries,
    registry cluster_ids = OK ids ∧
    Forall2 gene_entry gene_length entries ∧
    ∀ c, tgl !! c = if decide (c ∈ ids) then Some (total_of c entries) else None.
Proof.
  unfold read_gene_lengths. intros (zeros & Hz & Hloop)%bind_OK.
  apply cluster_zeros_OK in Hz as (ids & Hids & Hzeros).
  apply gene_lengths_loop_OK in Hloop as (entries & Hall & _ & Htgl).
  exists ids, entries. repeat split; try done.
  intros c. rewrite Htgl, Hzeros, lookup_empty. by case_decide.
Qed.

(** X12.  [read_gene_lengths] returns exactly when the registry can be
    read, every line of the table has a gene and an integer length, and
    the cluster of every gene is in the registry; a gene of an unknown
    cluster makes it raise. *)
Theorem read_gene_lengths_returns (cluster_ids gene_length : list string) :
  (∃ tgl, read_gene_lengths cluster_ids gene_length = OK tgl) ↔
  ∃ ids entries,
    registry cluster_ids = OK ids ∧
    Forall2 gene_entry gene_length entries ∧
    Forall (λ e, e.1 ∈ ids) entries.
Proof.
  unfold read_gene_lengths. split.
  - intros (tgl & (zeros & Hz & Hloop)%bind_OK).
    apply cluster_zeros_OK in Hz as (ids & Hids & Hzeros).
    apply gene_lengths_loop_OK in Hloop as (entries & Hall & Hdom & _).
    exists ids, entries. repeat split; try done.
    eapply Forall_impl; [done|]. intros e [x Hx]%elem_of_dom.
    rewrite Hzeros, lookup_empty in Hx. by case_decide.
  - intros (ids & entries & Hids & Hall & Hdom).
    destruct (cluster_zeros_total _ _ Hids ∅) as [zeros Hz]. rewrite Hz. simpl.
    apply cluster_zeros_OK in Hz as (ids' & Hids' & Hzeros).
    assert (ids' = ids) as -> by congruence.
    eapply gene_lengths_loop_total; [done|].
    eapply Forall_impl; [done|]. intros e He. apply elem_of_dom.
    rewrite Hzeros. by rewrite decide_True.
Qed.

(** ** When the normaliser returns *)

Lemma coverage_returns (tgl : gmap string Z) (c : string) (alns : list alignment) :
  (∃ x, coverage tgl c alns = OK x) ↔
  (alns ≠ [] →
     (∀ a, a ∈ alns → is_Some (aln a)) ∧ ∃ len, tgl !! c = Some len ∧ len ≠ 0).
Proof.
  unfold coverage. destruct alns as [|a alns].
  { rewrite decide_False by (simpl; lia). split; [done|eauto]. }
  rewrite decide_True by (simpl; lia). split.
  - intros [x H] _. apply bind_OK in H as (lens & Hlens%mapM_OK & H).
    apply bind_OK in H as (len & Hlen%getitem_OK & H). split.
    + intros b [i Hi]%list_elem_of_lookup.
      destruct (Forall2_lookup_l _ _ _ _ _ Hlens Hi) as (n & _ & Hn%getitem_OK). eauto.
    + exists len. split; [done|]. by case_decide.
  - intros Hok. destruct Hok as [Haln (len & Hlen & Hne)]; [done|].
    destruct (mapM_total (λ a, getitem (aln a)) (a :: alns)) as [lens Hlens].
    { intros b [n Hn]%Haln. exists n. by rewrite Hn. }
    rewrite Hlens, Hlen. simpl. rewrite decide_False by done. eauto.
Qed.

(** X13.  [normalize_counts] returns exactly when every cluster with
    records has, in the table of gene lengths, a length that is not zero,
    and all its records have an alignment length: a missing or zero length
    makes it raise, a negative one does not, and a cluster without records
    asks nothing of the table. *)
Theorem normalize_counts_returns (cluster_alns : gmap string (list alignment))
    (tgl : gmap string Z) :
  (∃ ca, normalize_counts cluster_alns tgl = OK ca) ↔
  ∀ c alns, cluster_alns !! c = Some alns → alns ≠ [] →
    (∀ a, a ∈ alns → is_Some (aln a)) ∧ ∃ len, tgl !! c = Some len ∧ len ≠ 0.
Proof.
  split.
  - intros [ca (covs & Hcovs & _)%normalize_counts_OK] c alns Hc.
    apply coverage_loop_OK in Hcovs as [Hin _]; [|apply NoDup_fst_map_to_list].
    apply elem_of_map_to_list in Hc. destruct (Hin c alns Hc) as (x & Hx & _).
    apply coverage_returns. eauto.
  - intros Hall.
    destruct (coverage_loop_total tgl (map_to_list cluster_alns) ∅) as [covs Hcovs].
    { intros c alns Hin%elem_of_map_to_list. apply coverage_returns. eauto. }
    unfold normalize_counts. rewrite Hcovs. simpl. eauto.
Qed.

(** ** The conversion to cellular abundances *)

Lemma genomes_zero (bp : Z) (ags : Q) :
  ¬ (ags == 0)%Q → (inject_Z bp / ags == 0)%Q ↔ bp = 0.
Proof.
  intros Hags. split.
  - intros H. assert (Hbp : (inject_Z bp == (inject_Z bp / ags) * ags)%Q) by (by field).
    rewrite H, Qmult_0_l in Hbp. unfold Qeq, inject_Z in Hbp. simpl in Hbp. lia.
  - intros ->. unfold Qdiv. change (inject_Z 0) with 0%Q. ring.
Qed.

(** X14.  The conversion returns exactly when the average genome size is
    not zero and, unless the table is empty, the count of sampled bases is
    not zero either; otherwise it raises [ZeroDivisionError]. *)
Theorem rescale_returns (bp : Z) (ags : Q) (ca : gmap string abundance) :
  match rescale bp ags ca with
  | OK _ => ¬ (ags == 0)%Q ∧ (ca = ∅ ∨ bp ≠ 0)
  | Raise e => e = ZeroDivisionError ∧ ((ags == 0)%Q ∨ (ca ≠ ∅ ∧ bp = 0))
  end.
Proof.
  unfold rescale. destruct (Qeq_bool ags 0) eqn:Hags.
  { apply Qeq_bool_iff in Hags. split; [done|by left]. }
  apply Qeq_bool_neq in Hags. case_decide as Hca; [split; [done|by left]|].
  destruct (Qeq_bool (inject_Z bp / ags) 0) eqn:Hg.
  - apply Qeq_bool_iff, genomes_zero in Hg; [|done]. split; [done|by right].
  - apply Qeq_bool_neq in Hg. split; [done|]. right. intros Hbp. apply Hg.
    by apply genomes_zero.
Qed.

Lemma Qsum_cons (x : Q) (l : list Q) : Qsum (x :: l) = (x + Qsum l)%Q.
Proof. done. Qed.

Lemma Qsum_fmap_div {A} (f : A → Q) (t : Q) (l : list A) :
  (Qsum ((λ x, f x / t)%Q <$> l) == Qsum (f <$> l) / t)%Q.
Proof.
  induction l as [|x l IH].
  - simpl. unfold Qdiv. ring.
  - rewrite !fmap_cons, !Qsum_cons, IH. unfold Qdiv. ring.
Qed.

(** X15.  The conversion keeps the clusters and their coverage, and makes
    the relative abundance of each the coverage divided by the genome
    equivalents [bp / ags]; the relative abundances then add up to the
    total coverage divided by the genome equivalents, not to one. *)
Theorem rescale_values (bp : Z) (ags : Q) (ca ca' : gmap string abundance) :
  rescale bp ags ca = OK ca' →
  let genomes := (inject_Z bp / ags)%Q in
  (∀ c, ca' !! c =
        (λ v, {| cov := cov v; rel_abun := (cov v / genomes)%Q |}) <$> ca !! c) ∧
  (Qsum (rel_abun <$> values ca') == Qsum (cov <$> values ca) / genomes)%Q.
Proof.
  intros H genomes. unfold rescale in H.
  assert (ca' = (λ v, {| cov := cov v; rel_abun := (cov v / genomes)%Q |}) <$> ca) as ->.
  { repeat case_match; simplify_eq; [|done]. by rewrite fmap_empty. }
  split.
  - intros c. by rewrite lookup_fmap.
  - rewrite values_fmap, <- list_fmap_compose.
    rewrite (list_fmap_ext _ (λ v, cov v / genomes)%Q (values ca)) by done.
    apply Qsum_fmap_div.
Qed.

(** ** The pipeline on samples without ambiguity *)

Lemma Qsum_zeros (l : list Q) : Forall (λ x, x = 0%Q) l → (Qsum l == 0)%Q.
Proof.
  induction 1 as [|x l -> _ IH]; [done|]. rewrite Qsum_cons, IH. ring.
Qed.

Lemma normalize_counts_no_records (cluster_alns : gmap string (list alignment))
    (tgl : gmap string Z) :
  (∀ c alns, cluster_alns !! c = Some alns → alns = []) →
  ∃ ca,
    normalize_counts cluster_alns tgl = OK ca ∧
    dom ca = dom cluster_alns ∧
    ∀ c v, ca !! c = Some v → v = {| cov := 0; rel_abun := 0 |}.
Proof.
  intros Hemp.
  destruct (coverage_loop_total tgl (map_to_list cluster_alns) ∅) as [covs Hcovs].
  { intros c alns Hin%elem_of_map_to_list. rewrite (Hemp c alns Hin). by exists 0%Q. }
  pose proof (coverage_loop_OK tgl _ _ _ (NoDup_fst_map_to_list cluster_alns) Hcovs)
    as [Hin Hout].
  assert (Hzero : ∀ c x, covs !! c = Some x → x = 0%Q).
  { intros c x Hx. destruct (cluster_alns !! c) as [alns|] eqn:Hc.
    - pose proof (Hemp c alns Hc) as ->. apply elem_of_map_to_list in Hc.
      destruct (Hin c [] Hc) as (x' & Hx' & Hres). injection Hx' as <-. congruence.
    - rewrite Hout, lookup_empty in Hx; [done|].
      intros ((c' & alns) & -> & Hc')%list_elem_of_fmap.
      apply elem_of_map_to_list in Hc'. simpl in Hc. congruence. }
  assert (Htotal : Qltb 0 (Qsum (values covs)) = false).
  { apply Qltb_false. rewrite Qsum_zeros; [lra|].
    apply Forall_forall. intros x ((c & x') & -> & Hx%elem_of_map_to_list)%list_elem_of_fmap.
    by eapply Hzero. }
  assert (Hnorm : normalize_counts cluster_alns tgl =
            OK ((λ c, {| cov := c; rel_abun := 0 |}) <$> covs)).
  { unfold normalize_counts. rewrite Hcovs. simpl. by rewrite Htotal. }
  eexists. split; [done|]. split; [by eapply normalize_counts_dom|].
  intros c v. rewrite lookup_fmap. intros (x & Hx & ->)%fmap_Some.
  by rewrite (Hzero c x Hx).
Qed.

(** X16.  When no read passes the filters the pipeline still writes its
    table: one row for every cluster of the registry, with coverage zero
    and relative abundance zero, whatever the gene lengths are. *)
Theorem estimate_abundance_no_hits (marker_cutoffs_file blastout cluster_ids gene_length
    : list string) (r : rng) (ids : list string) (tgl : gmap string Z) :
  find_best_hits marker_cutoffs_file blastout = OK [] →
  registry cluster_ids = OK ids →
  read_gene_lengths cluster_ids gene_length = OK tgl →
  ∃ rows,
    estimate_abundance marker_cutoffs_file blastout cluster_ids gene_length None r =
      OK (header :: (row <$> rows)) ∧
    rows.*1 ≡ₚ elements (list_to_set ids : gset string) ∧
    Forall (λ item, item.2 = {| cov := 0; rel_abun := 0 |}) rows.
Proof.
  intros Hfind Hids Htgl. unfold estimate_abundance. rewrite Hfind. simpl.
  destruct (cluster_lists_total _ _ Hids ∅ []) as (d & h & Hd).
  unfold assign_unique. rewrite Hd. simpl.
  unfold assign_non_unique, copy. simpl. rewrite Htgl. simpl.
  pose proof Hd as (ids' & Hids' & Hdom)%cluster_lists_dom.
  assert (ids' = ids) as -> by congruence.
  apply cluster_lists_separate in Hd as [Hsep Hemp]; [|by split|done].
  destruct (normalize_counts_no_records (contents h d) tgl) as (ca & -> & Hca & Hzero).
  { intros c alns. rewrite contents_lookup. destruct (d !! c) as [l|] eqn:Hl; [simpl|done].
    rewrite (Hemp c l Hl). congruence. }
  simpl. exists (map_to_list ca). split; [done|]. split.
  - rewrite keys_elements, Hca, dom_contents, Hdom by done.
    by rewrite dom_empty_L, (left_id_L ∅ (∪)).
  - apply Forall_forall. intros [c v] Hin%elem_of_map_to_list. simpl. by eapply Hzero.
Qed.

(** X17.  When no read is ambiguous, the table that the pipeline writes
    does not depend on the random sources. *)
Theorem estimate_abundance_unambiguous (marker_cutoffs_file blastout cluster_ids gene_length
    : list string) (norm : option (Z * Q)) (r r' : rng) (groups : list (list alignment)) :
  find_best_hits marker_cutoffs_file blastout = OK groups →
  Forall (λ aln, (length aln ≤ 1)%nat) groups →
  estimate_abundance marker_cutoffs_file blastout cluster_ids gene_length norm r =
  estimate_abundance marker_cutoffs_file blastout cluster_ids gene_length norm r'.
Proof.
  intros Hfind Hall. unfold estimate_abundance. rewrite Hfind. simpl.
  destruct (assign_unique cluster_ids groups []) as [[u h]|e]; [simpl|done].
  unfold assign_non_unique, copy. by rewrite !assign_non_unique_loop_skip.
Qed.

(** ** The profile read back *)

Lemma append_cons (c : ascii) (s t : string) : String c s +:+ t = String c (s +:+ t).
Proof. done. Qed.

Lemma append_assoc (s t u : string) : (s +:+ t) +:+ u = s +:+ (t +:+ u).
Proof. induction s as [|c s IH]; [done|]. rewrite !append_cons. by f_equal. Qed.

Lemma append_empty_l (s : string) : "" +:+ s = s.
Proof. done. Qed.

Lemma append_empty_r (s : string) : s +:+ "" = s.
Proof. induction s as [|c s IH]; [done|]. rewrite append_cons. by f_equal. Qed.

Lemma rev_app_rev_app (t a b : string) :
  String.rev_app (String.rev_app t a) b = String.rev_app a (t +:+ b).
Proof.
  revert a b. induction t as [|c t IH]; intros a b; [done|].
  simpl. by rewrite IH.
Qed.

Lemma rev_rev_app (t : string) : String.rev (String.rev_app t "") = t.
Proof. unfold String.rev. rewrite rev_app_rev_app. simpl. apply append_empty_r. Qed.

Lemma words_go_space (a : ascii) (cur : option string) (s : string) :
  Ascii.is_space a = true →
  String.words_go cur (String a s) =
    option_list (String.rev <$> cur) ++ String.words_go None s.
Proof. intros H. simpl. by rewrite H. Qed.

Lemma words_go_char (a : ascii) (cur : option string) (s : string) :
  Ascii.is_space a = false →
  String.words_go cur (String a s) =
    String.words_go (Some (String a (default "" cur))) s.
Proof. intros H. simpl. rewrite H. by destruct cur. Qed.

Lemma words_go_token (t : string) :
  no_space t → t ≠ "" →
  ∀ cur s, String.words_go cur (t +:+ s) =
           String.words_go (Some (String.rev_app t (default "" cur))) s.
Proof.
  induction t as [|a t IH]; intros Hns Hne cur s; [done|].
  simpl in Hns. apply andb_True in Hns as [Ha Hns].
  apply negb_True, Is_true_false in Ha.
  rewrite append_cons. simpl String.words_go at 1. rewrite Ha.
  assert (from_option (String a) (String a "") cur = String a (default "" cur)) as ->
    by (by destruct cur).
  destruct t as [|b t]; [done|]. by rewrite IH.
Qed.

Lemma words_token_space (t : string) (a : ascii) (s : string) :
  token t → Ascii.is_space a = true →
  String.words_go None (t +:+ String a s) = t :: String.words_go None s.
Proof.
  intros [Hne Hns] Ha. rewrite words_go_token, words_go_space by done.
  simpl. by rewrite rev_rev_app.
Qed.

Lemma rstrip_empty (s : string) :
  rstrip s = "" → ∀ cur, String.words_go cur s = option_list (String.rev <$> cur).
Proof.
  induction s as [|c s IH]; intros H cur; [done|].
  simpl in H. destruct (rstrip s) eqn:Hs; [|done].
  destruct (Ascii.is_space c) eqn:Hc; [|done].
  rewrite words_go_space by done. rewrite (IH eq_refl). simpl. by rewrite app_nil_r.
Qed.

Lemma words_go_rstrip (s : string) :
  ∀ cur, String.words_go cur (rstrip s) = String.words_go cur s.
Proof.
  induction s as [|c s IH]; intros cur; [done|].
  simpl rstrip. destruct (rstrip s) as [|d r] eqn:Hs.
  - destruct (Ascii.is_space c) eqn:Hc.
    + rewrite words_go_space by done. rewrite (rstrip_empty s Hs). simpl.
      by rewrite app_nil_r.
    + simpl. rewrite Hc. by rewrite (rstrip_empty s Hs).
  - destruct (Ascii.is_space c) eqn:Hc.
    + rewrite (words_go_space c cur s), (words_go_space c cur (String d r)) by done.
      by rewrite IH.
    + rewrite (words_go_char c cur s), (words_go_char c cur (String d r)) by done.
      by rewrite IH.
Qed.

Lemma split_rstrip (s : string) : split (rstrip s) = split s.
Proof. apply words_go_rstrip. Qed.

Lemma split_row (c s1 s2 : string) :
  token c → token s1 → token s2 →
  split (rstrip (join tab [c; s1; s2] +:+ newline)) = [c; s1; s2].
Proof.
  intros Hc H1 H2. rewrite split_rstrip. unfold split, String.words. simpl join.
  rewrite !append_assoc. unfold tab, newline.
  rewrite !append_cons, !append_empty_l.
  by rewrite !words_token_space.
Qed.

Lemma foldl_insert_lookup {A} (entries : list (string * A)) :
  ∀ (init : gmap string A) c,
    foldl (λ d e, <[e.1 := e.2]> d) init entries !! c =
      match last_value c entries with
      | Some x => Some x
      | None => init !! c
      end.
Proof.
  induction entries as [|e entries IH]; intros init c; [done|].
  simpl. rewrite IH, last_value_cons. destruct (last_value c entries); [done|].
  rewrite lookup_insert. by case_decide.
Qed.

Lemma read_abundance_loop_OK (lines : list string) :
  ∀ init d,
    read_abundance_loop lines init = OK d ↔
    ∃ entries,
      Forall2 profile_entry lines entries ∧
      d = foldl (λ d e, <[e.1 := e.2]> d) init entries.
Proof.
  induction lines as [|line lines IH]; intros init d; simpl.
  - split.
    + intros [= <-]. exists []. split; [constructor|done].
    + intros (entries & ->%Forall2_nil_inv_l & ->). done.
  - rewrite bind_OK. split.
    + intros (c & Hc & H). apply bind_OK in H as (x & Hx & H).
      apply bind_OK in H as (y & Hy & H). apply IH in H as (entries & Hall & ->).
      exists ((c, Profile x y) :: entries). split; [|done]. by constructor.
    + intros (entries & Hall & ->).
      apply Forall2_cons_inv_l in Hall as ([c [x y]] & entries' & (Hc & Hx & Hy) & Hall & ->).
      simpl in *. exists c. split; [done|]. rewrite Hx. simpl. rewrite Hy. simpl.
      apply IH. eauto.
Qed.

(** X18.  [read_abundance] passes over the first line of the file, whatever
    it holds, and gives a cluster the values of the last line that names
    it: the columns that this line has, and no value from an earlier line. *)
Theorem read_abundance_profile (inpath first_line : string) (lines : list string)
    (d : gmap string profile) :
  read_abundance inpath (Some (first_line :: lines)) = Returns d →
  ∃ entries,
    Forall2 profile_entry lines entries ∧
    ∀ c, d !! c = last_value c entries.
Proof.
  simpl. destruct (read_abundance_loop lines ∅) as [d'|e] eqn:H; [|done].
  intros [= <-]. apply read_abundance_loop_OK in H as (entries & Hall & ->).
  exists entries. split; [done|]. intros c.
  rewrite foldl_insert_lookup, lookup_empty. by destruct (last_value c entries).
Qed.

Lemma last_value_NoDup {A} (entries : list (string * A)) (c : string) (y : A) :
  NoDup entries.*1 → last_value c entries = Some y ↔ (c, y) ∈ entries.
Proof.
  intros Hnd. revert y. induction entries as [|[k x] entries IH]; intros y.
  - split; [done|]. by intros ?%elem_of_nil.
  - rewrite fmap_cons in Hnd. apply NoDup_cons in Hnd as [Hk Hnd]. simpl in Hk.
    specialize (IH Hnd). rewrite last_value_cons, elem_of_cons. simpl.
    destruct (last_value c entries) as [z|].
    + pose proof (proj1 (IH z) eq_refl) as Hin. split.
      * intros [= <-]. by right.
      * intros [[= -> ->]|Hy]; [|by apply IH].
        destruct Hk. apply list_elem_of_fmap. by exists (k, z).
    + split.
      * case_decide; [|done]. intros [= <-]. left. by subst.
      * intros [[= -> ->]|Hy]; [by rewrite decide_True|]. by apply IH in Hy.
Qed.

(** C9.  A table written by [write_abundance] is read back by
    [read_abundance] cluster for cluster, and the value read for each
    number is the float of the string written for it: the table read is
    the table written exactly when [float(str(x))] is [x] for every number
    of the table.  It is assumed that a cluster identifier and the string
    of a float are single tokens, and that the strings are read as floats. *)
Theorem read_write_abundance (inpath : string) (ca : gmap string abundance) :
  (∀ c v, ca !! c = Some v →
     token c ∧ token (str_of_float (cov v)) ∧ token (str_of_float (rel_abun v))) →
  (∀ c v, ca !! c = Some v →
     is_Some (float_of_string (str_of_float (cov v))) ∧
     is_Some (float_of_string (str_of_float (rel_abun v)))) →
  read_abundance inpath (Some (write_abundance ca)) = Returns (read_back <$> ca) ∧
  (read_back <$> ca = exact <$> ca ↔
   ∀ c v, ca !! c = Some v →
     float_of_string (str_of_float (cov v)) = Some (cov v) ∧
     float_of_string (str_of_float (rel_abun v)) = Some (rel_abun v)).
Proof.
  intros Htok Hfloat. split.
  - unfold write_abundance. simpl.
    assert (Hloop : read_abundance_loop (row <$> map_to_list ca) ∅ =
              OK (foldl (λ d e, <[e.1 := e.2]> d) ∅
                    (prod_map id read_back <$> map_to_list ca))).
    { apply read_abundance_loop_OK. eexists. split; [|done].
      apply Forall2_fmap, Forall_Forall2_diag, Forall_forall.
      intros [c v] Hin%elem_of_map_to_list.
      destruct (Htok c v Hin) as (Hc & H1 & H2).
      destruct (Hfloat c v Hin) as ([x Hx] & [y Hy]).
      unfold profile_entry, row. simpl fst. simpl snd. rewrite split_row by done.
      unfold column, float, read_back. simpl. by rewrite Hx, Hy. }
    rewrite Hloop. simpl. f_equal. apply map_eq. intros c.
    rewrite foldl_insert_lookup, lookup_empty, lookup_fmap.
    assert (Hnd : NoDup (prod_map id read_back <$> map_to_list ca).*1).
    { rewrite <- list_fmap_compose.
      rewrite (list_fmap_ext _ fst (map_to_list ca)) by (by intros ? [? ?]).
      apply NoDup_fst_map_to_list. }
    destruct (last_value c _) as [p|] eqn:Hp.
    + apply last_value_NoDup in Hp; [|done].
      apply list_elem_of_fmap in Hp as ([c' v] & [= -> ->] & Hin%elem_of_map_to_list).
      by rewrite Hin.
    + destruct (ca !! c) as [v|] eqn:Hv; [|done].
      assert (last_value c (prod_map id read_back <$> map_to_list ca) = Some (read_back v))
        as Hsome; [|congruence].
      apply last_value_NoDup; [done|]. apply list_elem_of_fmap.
      exists (c, v). split; [done|]. by apply elem_of_map_to_list.
  - split.
    + intros Heq c v Hc. assert (read_back v = exact v) as Hv.
      { pose proof (f_equal (λ m, m !! c) Heq) as Hl. simpl in Hl.
        rewrite !lookup_fmap, Hc in Hl. simpl in Hl. congruence. }
      unfold read_back, exact in Hv. by injection Hv.
    + intros Hall. apply map_fmap_ext. intros c v Hc.
      destruct (Hall c v Hc) as [H1 H2]. unfold read_back, exact. by rewrite H1, H2.
Qed.

(** ** The selection of genome clusters *)

Lemma bind_Returns {A B} (m : outcome A) (f : A → outcome B) (b : B) :
  m ≫= f = Returns b ↔ ∃ a, m = Returns a ∧ f a = Returns b.
Proof.
  destruct m as [a|e]; simpl; split.
  - intros H. by exists a.
  - by intros (a' & [= <-] & H).
  - discriminate.
  - by intros (a' & [=] & _).
Qed.

Lemma lift_Returns {A} (m : result A) (a : A) : lift m = Returns a ↔ m = OK a.
Proof. destruct m; simpl; split; congruence. Qed.

(** X20.  Without any of the four criteria the function does not reach its
    own message for an empty selection: the intersection of no set raises
    [TypeError]. *)
Theorem select_genome_clusters_no_criterion (args : selection)
    (profile : option (list string)) (db bad_gcs : list string) :
  given_int (gc_topn args) = false →
  given_float (gc_cov args) = false →
  given_float (gc_rbun args) = false →
  given_list (gc_id args) = false →
  select_genome_clusters args profile db bad_gcs = Fails TypeError.
Proof.
  intros Htopn Hcov Hrbun Hid. unfold select_genome_clusters.
  by rewrite Htopn, Hcov, Hrbun, Hid.
Qed.

Lemma at_least_OK (get : profile → option Q) (t : Q) (items : list (string * profile)) :
  ∀ acc s,
    at_least get t items acc = OK s →
    ∀ c, c ∈ s ↔ c ∈ acc ∨ passes get t items c.
Proof.
  induction items as [|[k v] items IH]; intros acc s H c; simpl in H.
  - injection H as <-. split; [by left|]. intros [?|(? & ? & ?%elem_of_nil & _)]; done.
  - apply bind_OK in H as (x & Hx%getitem_OK & H).
    destruct (Qle_bool t x) eqn:Hle.
    + apply Qle_bool_iff in Hle. rewrite (IH _ _ H), elem_of_union, elem_of_singleton.
      split.
      * intros [[->|?]|(v' & x' & Hin & ? & ?)]; [|by left|].
        -- right. exists v, x. split; [left|done].
        -- right. exists v', x'. split; [by right|done].
      * intros [?|(v' & x' & [[= -> ->]|Hin]%elem_of_cons & ? & ?)].
        -- left. by right.
        -- left. by left.
        -- right. by exists v', x'.
    + rewrite (IH _ _ H). split.
      * intros [?|(v' & x' & Hin & ? & ?)]; [by left|].
        right. exists v', x'. split; [by right|done].
      * intros [?|(v' & x' & [[= -> ->]|Hin]%elem_of_cons & Hg & Hle')]; [by left| |].
        -- assert (x' = x) as -> by congruence.
           apply Qle_bool_iff in Hle'. congruence.
        -- right. by exists v', x'.
Qed.

Lemma remove_first_NoDup (x : string) (l : list string) :
  NoDup l → NoDup (remove_first x l) ∧ ∀ c, c ∈ remove_first x l ↔ c ∈ l ∧ c ≠ x.
Proof.
  induction 1 as [|y l Hy Hnd [IH1 IH2]]; simpl.
  - split; [constructor|]. intros c. split; [by intros ?%elem_of_nil|by intros [?%elem_of_nil _]].
  - case_decide as Hyx.
    + subst y. split; [done|]. intros c. rewrite elem_of_cons. split.
      * intros Hc. split; [by right|]. by intros ->.
      * by intros [[->|?] ?].
    + split.
      * constructor; [|done]. rewrite IH2. by intros [? _].
      * intros c. rewrite !elem_of_cons, IH2. split.
        -- intros [->|[? ?]]; [by split; [left|]|by split; [right|]].
        -- intros [[->|?] ?]; [by left|by right].
Qed.

Lemma remove_bad_NoDup (bad_gcs : list string) :
  ∀ l, NoDup l →
    NoDup (foldl (λ l line, remove_first (rstrip line) l) l bad_gcs) ∧
    ∀ c, c ∈ foldl (λ l line, remove_first (rstrip line) l) l bad_gcs ↔
         c ∈ l ∧ ∀ line, line ∈ bad_gcs → c ≠ rstrip line.
Proof.
  induction bad_gcs as [|line bad_gcs IH]; intros l Hnd; simpl.
  - split; [done|]. intros c. split; [|by intros [? _]].
    intros ?. split; [done|]. by intros ? ?%elem_of_nil.
  - destruct (remove_first_NoDup (rstrip line) l Hnd) as [Hnd' Hin].
    destruct (IH _ Hnd') as [Hnd2 Hin2]. split; [done|].
    intros c. rewrite Hin2, Hin. split.
    + intros [[? ?] Hrest]. split; [done|]. by intros line' [->|?]%elem_of_cons; [|apply Hrest].
    + intros [? Hall]. split; [split; [done|apply Hall; left]|].
      intros line' ?. apply Hall. by right.
Qed.

Lemma foldr_intersection (s : gset string) (l : list (gset string)) (c : string) :
  c ∈ foldr (∩) s l ↔ c ∈ s ∧ ∀ t, t ∈ l → c ∈ t.
Proof.
  induction l as [|u l IH]; simpl.
  - split; [|by intros [? _]]. intros ?. split; [done|]. by intros ? ?%elem_of_nil.
  - rewrite elem_of_intersection, IH. split.
    + intros (? & ? & Hall). split; [done|]. by intros t [->|?]%elem_of_cons; [|apply Hall].
    + intros (? & Hall). split; [apply Hall; left|]. split; [done|].
      intros t ?. apply Hall. by right.
Qed.

Lemma set_intersection_Returns (sets : list (option (gset string))) (s : gset string) :
  set_intersection sets = Returns s →
  ∀ c, c ∈ s ↔ ∀ t, Some t ∈ sets → c ∈ t.
Proof.
  unfold set_intersection. intros H c.
  destruct (omap id sets) as [|s0 l] eqn:Hsets; [done|]. injection H as <-.
  assert (Hin : ∀ t, Some t ∈ sets ↔ t ∈ s0 :: l).
  { intros t. rewrite <- Hsets, list_elem_of_omap. split.
    - intros ?. by exists (Some t).
    - by intros ([u|] & ? & [= <-]). }
  rewrite foldr_intersection. setoid_rewrite Hin. split.
  - intros [? Hall] t [->|?]%elem_of_cons; [done|by apply Hall].
  - intros Hall. split; [apply Hall; left|]. intros t ?. apply Hall. by right.
Qed.

Lemma criterion_Returns (given : bool) (m : result (gset string))
    (o : option (gset string)) :
  (if given then lift (Some <$> m) else Returns None) = Returns o →
  if given then ∃ t, m = OK t ∧ o = Some t else o = None.
Proof.
  destruct given; [|congruence].
  destruct m as [t|e]; simpl; [|done]. intros [= <-]. eauto.
Qed.

(** What the function has when it comes to the intersection. *)
Lemma select_genome_clusters_Returns (args : selection) (profile : option (list string))
    (db bad_gcs l : list string) :
  select_genome_clusters args profile db bad_gcs = Returns l →
  ∃ by_cov by_rbun by_topn selected,
    (if given_int (gc_topn args) || given_float (gc_cov args) || given_float (gc_rbun args)
     then ∃ d, read_abundance (profile_path args) profile = Returns d ∧
          (if given_float (gc_cov args)
           then ∃ t, at_least profile_cov (default 0%Q (gc_cov args)) (map_to_list d) ∅ = OK t ∧
                     by_cov = Some t
           else by_cov = None) ∧
          (if given_float (gc_rbun args)
           then ∃ t, at_least profile_rel_abun (default 0%Q (gc_rbun args)) (map_to_list d) ∅
                       = OK t ∧ by_rbun = Some t
           else by_rbun = None) ∧
          (if given_int (gc_topn args)
           then ∃ t, top_clusters (default 0 (gc_topn args)) (map_to_list d) = OK t ∧
                     by_topn = Some t
           else by_topn = None)
     else by_cov = None ∧ by_rbun = None ∧ by_topn = None) ∧
    set_intersection
      [by_cov;
       if given_list (gc_id args) then Some (list_to_set (default [] (gc_id args)))
       else by_rbun;
       by_topn] = Returns selected ∧
    Forall (λ c, c ∈ db) (elements selected) ∧
    l = foldl (λ l line, remove_first (rstrip line) l) (elements selected) bad_gcs ∧
    l ≠ [].
Proof.
  unfold select_genome_clusters. intros H.
  apply bind_Returns in H as ([[by_cov by_rbun] by_topn] & Hsets & H).
  apply bind_Returns in H as (selected & Hsel & H). simpl in Hsel.
  exists by_cov, by_rbun, by_topn, selected. split; [|split; [done|]].
  - destruct (given_int (gc_topn args) || given_float (gc_cov args)
              || given_float (gc_rbun args)); [|by injection Hsets as <- <- <-].
    apply bind_Returns in Hsets as (d & Hd & Hsets). exists d. split; [done|].
    apply bind_Returns in Hsets as (o1 & H1%criterion_Returns & Hsets).
    apply bind_Returns in Hsets as (o2 & H2%criterion_Returns & Hsets).
    apply bind_Returns in Hsets as (o3 & H3%criterion_Returns & [= <- <- <-]).
    done.
  - destruct (list_find _ (elements selected)) as [[? ?]|] eqn:Hfind; [done|].
    apply list_find_None in Hfind. case_decide as Hlen; [done|]. injection H as <-.
    split; [|split; [done|]].
    + eapply Forall_impl; [done|]. intros c Hc. simpl in Hc. by apply dec_stable.
    + intros Hnil. by rewrite Hnil in Hlen.
Qed.

(** X21.  The clusters that [select_genome_clusters] returns are at least
    one and all different; each is in the reference database, is not one
    of the bad clusters, is one of the given identifiers when identifiers
    are given, and has a coverage of at least the threshold when one is
    given; the threshold on the relative abundance holds when it is given
    and no identifier is. *)
Theorem select_genome_clusters_result (args : selection) (profile : option (list string))
    (db bad_gcs l : list string) :
  select_genome_clusters args profile db bad_gcs = Returns l →
  l ≠ [] ∧ NoDup l ∧
  ∀ c, c ∈ l →
    c ∈ db ∧
    (∀ line, line ∈ bad_gcs → c ≠ rstrip line) ∧
    (given_list (gc_id args) → c ∈ default [] (gc_id args)) ∧
    (given_float (gc_cov args) →
       ∃ d, read_abundance (profile_path args) profile = Returns d ∧
            passes profile_cov (default 0%Q (gc_cov args)) (map_to_list d) c) ∧
    (given_float (gc_rbun args) → given_list (gc_id args) = false →
       ∃ d, read_abundance (profile_path args) profile = Returns d ∧
            passes profile_rel_abun (default 0%Q (gc_rbun args)) (map_to_list d) c).
Proof.
  intros (by_cov & by_rbun & by_topn & selected & Hsets & Hsel & Hdb & -> & Hne)
    %select_genome_clusters_Returns.
  destruct (remove_bad_NoDup bad_gcs (elements selected) (NoDup_elements selected))
    as [Hnd Hin].
  split; [done|]. split; [done|]. intros c [Hc Hbad]%Hin.
  rewrite Forall_forall in Hdb. split; [by apply Hdb|]. split; [done|].
  apply elem_of_elements in Hc.
  pose proof (proj1 (set_intersection_Returns _ _ Hsel c) Hc) as Hall.
  split; [|split].
  - intros Hid. destruct (given_list (gc_id args)); [|done].
    assert (c ∈ (list_to_set (default [] (gc_id args)) : gset string)) as Hcid.
    { apply Hall. right. left. }
    by apply elem_of_list_to_set in Hcid.
  - intros Hcov. rewrite orb_comm, orb_assoc in Hsets.
    destruct (given_float (gc_cov args)); [|done]. simpl in Hsets.
    rewrite orb_true_r in Hsets.
    destruct Hsets as (d & Hd & (t & Ht & ->) & _). exists d. split; [done|].
    assert (c ∈ t) as Hct by (apply Hall; left).
    apply (at_least_OK _ _ _ _ _ Ht) in Hct as [?%not_elem_of_empty|?]; done.
  - intros Hrbun Hid. rewrite Hid in Hall.
    destruct (given_float (gc_rbun args)); [|done]. rewrite orb_true_r in Hsets.
    destruct Hsets as (d & Hd & _ & (t & Ht & ->) & _). exists d. split; [done|].
    assert (c ∈ t) as Hct by (apply Hall; right; left).
    apply (at_least_OK _ _ _ _ _ Ht) in Hct as [?%not_elem_of_empty|?]; done.
Qed.

(** X22.  A threshold on the relative abundance has no effect when
    cluster identifiers are given: the set of the identifiers is stored
    under the key of that threshold, so a run that returns returns what it
    returns without the threshold. *)
Theorem select_genome_clusters_ids_replace_rbun (args : selection)
    (profile : option (list string)) (db bad_gcs l : list string) :
  given_list (gc_id args) = true →
  select_genome_clusters args profile db bad_gcs = Returns l →
  select_genome_clusters (without_rbun args) profile db bad_gcs = Returns l.
Proof.
  intros Hid. unfold select_genome_clusters, without_rbun. simpl. rewrite Hid.
  destruct (given_int (gc_topn args)), (given_float (gc_cov args)),
    (given_float (gc_rbun args)); simpl; try done;
    destruct (read_abundance (profile_path args) profile) as [d|]; simpl; try done;
    try destruct (at_least profile_cov _ _ _); simpl; try done;
    try destruct (at_least profile_rel_abun _ _ _); simpl; try done;
    try destruct (top_clusters _ _); simpl; done.
Qed.

Lemma insert_sorted_Permutation (x : string * Q) (l : list (string * Q)) :
  insert_sorted x l ≡ₚ x :: l.
Proof.
  induction l as [|y l IH]; simpl; [done|].
  destruct (Qle_bool y.2 x.2); [done|]. by rewrite IH, Permutation_swap.
Qed.

Lemma sorted_Permutation (l : list (string * Q)) : sorted l ≡ₚ l.
Proof.
  induction l as [|x l IH]; simpl; [done|].
  by rewrite insert_sorted_Permutation, IH.
Qed.

Lemma insert_sorted_decreasing (x : string * Q) (l : list (string * Q)) :
  StronglySorted decreasing l → StronglySorted decreasing (insert_sorted x l).
Proof.
  induction 1 as [|y l Hl IH Hy]; simpl.
  - repeat constructor.
  - destruct (Qle_bool y.2 x.2) eqn:Hle.
    + apply Qle_bool_iff in Hle. constructor; [by constructor|].
      constructor; [done|]. eapply Forall_impl; [done|].
      intros z Hz. unfold decreasing in *. by eapply Qle_trans.
    + constructor; [done|]. rewrite insert_sorted_Permutation.
      constructor; [|done]. unfold decreasing.
      destruct (Qlt_le_dec x.2 y.2) as [?%Qlt_le_weak|Hge]; [done|].
      apply Qle_bool_iff in Hge. congruence.
Qed.

Lemma sorted_decreasing (l : list (string * Q)) : StronglySorted decreasing (sorted l).
Proof.
  induction l as [|x l IH]; simpl; [constructor|]. by apply insert_sorted_decreasing.
Qed.

(** A pair among the first [k] of a decreasing list has fewer than [k]
    pairs of a greater value in the list. *)
Lemma decreasing_take (l : list (string * Q)) (k : nat) (c : string) (x : Q) :
  StronglySorted decreasing l → (c, x) ∈ take k l →
  (length (filter (λ e, Is_true (Qltb x e.2)) l) < k)%nat.
Proof.
  intros Hl (i & Hi & Hik)%elem_of_take.
  rewrite <- (take_drop_middle l i (c, x) Hi) in Hl |- *.
  apply StronglySorted_app in Hl as (_ & _ & Hl). apply StronglySorted_inv in Hl as [_ Hle].
  rewrite filter_app, length_app, filter_cons_False.
  - rewrite (filter_none (λ e : string * Q, Is_true (Qltb x e.2)) (drop (S i) l)).
    + simpl. pose proof (length_filter (λ e : string * Q, Is_true (Qltb x e.2)) (take i l)).
      pose proof (length_take l i). lia.
    + eapply Forall_impl; [done|]. intros y Hy. unfold decreasing in Hy. simpl in Hy.
      unfold Qltb. apply Qle_bool_iff in Hy. rewrite Hy. by intros [].
  - simpl. unfold Qltb. rewrite (proj2 (Qle_bool_iff x x) (Qle_refl x)). by intros [].
Qed.

Lemma top_clusters_OK (n : Z) (items : list (string * profile)) (t : gset string) :
  top_clusters n items = OK t →
  ∃ ca, Forall2 (λ item p, profile_rel_abun item.2 = Some p.2 ∧ p.1 = item.1) items ca ∧
        t = list_to_set (slice (sorted ca) n).*1.
Proof.
  unfold top_clusters. intros (ca & Hca & [= <-])%bind_OK. exists ca. split; [|done].
  apply mapM_OK in Hca. eapply Forall2_impl; [done|].
  intros item p (r & Hr%getitem_OK & [= <-])%bind_OK. done.
Qed.

Lemma above_length (x : Q) (items : list (string * profile)) (ca : list (string * Q)) :
  Forall2 (λ item p, profile_rel_abun item.2 = Some p.2 ∧ p.1 = item.1) items ca →
  length (filter (λ e, Is_true (Qltb x e.2)) ca) = length (above x items).
Proof.
  unfold above. induction 1 as [|item p items ca [Hp _] _ IH]; [done|].
  assert (more_abundant x item.2 = Qltb x p.2) as Hm.
  { unfold more_abundant. by rewrite Hp. }
  destruct (Qltb x p.2) eqn:Hx.
  - rewrite !filter_cons_True; [|rewrite Hm; exact I|rewrite Hx; exact I].
    simpl. by rewrite IH.
  - rewrite !filter_cons_False; [done|rewrite Hm; by intros []|rewrite Hx; by intros []].
Qed.

(** X23.  With a positive [gc_topn] of [n] the function returns at most
    [n] clusters, and each of them has fewer than [n] clusters of the
    profile with a greater relative abundance. *)
Theorem select_genome_clusters_topn (args : selection) (profile : option (list string))
    (db bad_gcs l : list string) (n : Z) :
  gc_topn args = Some n → 0 < n →
  select_genome_clusters args profile db bad_gcs = Returns l →
  ∃ d, read_abundance (profile_path args) profile = Returns d ∧
       (length l ≤ Z.to_nat n)%nat ∧
       ∀ c, c ∈ l →
         ∃ v x, d !! c = Some v ∧ profile_rel_abun v = Some x ∧
                (length (above x (map_to_list d)) < Z.to_nat n)%nat.
Proof.
  intros Hn Hpos
    (by_cov & by_rbun & by_topn & selected & Hsets & Hsel & _ & -> & _)
    %select_genome_clusters_Returns.
  rewrite Hn in Hsets. simpl in Hsets.
  replace (n =? 0) with false in Hsets by lia. simpl in Hsets.
  destruct Hsets as (d & Hd & _ & _ & t & Ht & ->). exists d. split; [done|].
  apply top_clusters_OK in Ht as (ca & Hca & ->).
  unfold slice in *. rewrite decide_True in * by lia.
  destruct (remove_bad_NoDup bad_gcs (elements selected) (NoDup_elements selected))
    as [Hnd Hin].
  assert (Htop : ∀ c, c ∈ foldl (λ l line, remove_first (rstrip line) l)
                        (elements selected) bad_gcs →
                      c ∈ (take (Z.to_nat n) (sorted ca)).*1).
  { intros c [Hc%elem_of_elements _]%Hin.
    pose proof (proj1 (set_intersection_Returns _ _ Hsel c) Hc) as Hall.
    apply (elem_of_list_to_set (C := gset string)). apply Hall. right. right. left. }
  split.
  - apply NoDup_submseteq in Htop; [|done]. apply submseteq_length in Htop.
    rewrite length_fmap, length_take in Htop. lia.
  - intros c ([c' x] & -> & Hcx)%Htop%list_elem_of_fmap. simpl.
    pose proof (decreasing_take _ _ _ _ (sorted_decreasing ca) Hcx) as Hlt.
    apply elem_of_take in Hcx as (i & Hi%list_elem_of_lookup_2 & _).
    rewrite sorted_Permutation in Hi.
    apply list_elem_of_lookup_1 in Hi as [j Hj].
    destruct (Forall2_lookup_r _ _ _ _ _ Hca Hj) as ([c v] & Hitem & Hv & Hc).
    simpl in Hv, Hc. subst c'. exists v, x.
    split; [by apply elem_of_map_to_list, (list_elem_of_lookup_2 _ j)|]. split; [done|].
    rewrite <- (above_length x _ ca Hca).
    by rewrite <- (Permutation_length
      (filter_Permutation (λ e : string * Q, Is_true (Qltb x e.2)) _ _ (sorted_Permutation ca))).
Qed.

End Species.

(** ** The properties on the sample run *)

Lemma parse_line_short_line :
  length (split (rstrip "r1_60 C1_m1 98.5")) = 3%nat ∧
  parse_line decimal_float "r1_60 C1_m1 98.5" =
    OK (Alignment (Some "r1_60") (Some "C1_m1") (Some (985 # 10)) None None None None None
          None None None None).
Proof. split; reflexivity. Qed.

Lemma find_best_hits_groups_sample :
  let group := best_hit_group sample_marker_cutoffs sample_records "r2_60" in
  filter (λ g, group_query g = Some "r2_60") sample_best_hits = [group] ∧
  group ≠ [] ∧
  (∀ a, a ∈ group ↔
        a ∈ sample_records ∧ query a = Some "r2_60" ∧
        passes_filters sample_marker_cutoffs a ∧
        ∀ b, b ∈ sample_records → query b = Some "r2_60" →
             passes_filters sample_marker_cutoffs b → score_le b a) ∧
  (∀ a b, a ∈ group → b ∈ group →
          ∃ x y, score a = Some x ∧ score b = Some y ∧ (x == y)%Q).
Proof.
  apply (find_best_hits_groups decimal_float sample_cutoffs sample_blastout
           sample_marker_cutoffs sample_records sample_best_hits "r2_60").
  - reflexivity.
  - reflexivity.
  - repeat constructor; by eexists.
  - reflexivity.
  - vm_compute. discriminate.
Defined.


Lemma assignment_conservation_sample :
  (∃ picks, Forall2 (λ aln a, a ∈ aln) sample_best_hits picks ∧
            assigned sample_unique_alns sample_total_store ≡ₚ picks) ∧
  sum_list (length <$> values (contents sample_total_store sample_unique_alns)) =
    length sample_best_hits.
Proof.
  apply (assignment_conservation sample_cluster_ids sample_best_hits []
           sample_unique_store sample_total_store sample_unique_alns sample_unique_alns
           sample_rng sample_rng_after).
  - repeat constructor; discriminate.
  - reflexivity.
  - reflexivity.
Defined.

Lemma registry_clusters_have_rows_sample :
  ∃ ids rows,
    registry sample_cluster_ids = OK ids ∧
    dom sample_unique_alns = list_to_set ids ∧
    (∀ c, c ∈ ids → ∃ l xs, sample_unique_alns !! c = Some l ∧
                            sample_unique_store !! l = Some xs) ∧
    sample_table = header :: (row ratio_str <$> rows) ∧
    rows.*1 ≡ₚ elements (list_to_set ids : gset string).
Proof.
  apply (registry_clusters_have_rows decimal_float ratio_str sample_cutoffs sample_blastout
           sample_cluster_ids sample_gene_length None sample_rng sample_best_hits []
           sample_unique_store sample_unique_alns sample_table).
  - reflexivity.
  - reflexivity.
Defined.

Lemma normalize_counts_relative_sample :
  normalize_counts mixed_cluster_alns mixed_total_gene_length = OK mixed_abundance ∧
  dom mixed_abundance = dom mixed_cluster_alns ∧
  (0 < Qsum (cov <$> values mixed_abundance))%Q ∧
  (Qsum (rel_abun <$> values mixed_abundance) == 1)%Q ∧
  ∀ c v, mixed_abundance !! c = Some v →
    rel_abun v = (cov v / Qsum (cov <$> values mixed_abundance))%Q.
Proof.
  destruct (normalize_counts_relative mixed_cluster_alns mixed_total_gene_length)
    as (ca & Hca & Hdom & _ & Hpos & _).
  - assert (map_Forall (λ _ alns, Forall (λ a, is_Some (aln a)) alns) mixed_cluster_alns)
      as Hall.
    { repeat (apply map_Forall_insert_2 || apply map_Forall_empty);
        repeat (apply Forall_cons_2 || apply Forall_nil_2); by eexists. }
    intros c alns a Hc Ha. apply (map_Forall_lookup_1 _ _ _ _ Hall) in Hc.
    by eapply Forall_forall in Hc.
  - assert (map_Forall (λ c _, ∃ len, mixed_total_gene_length !! c = Some len ∧ 0 < len)
              mixed_cluster_alns) as Hall.
    { repeat (apply map_Forall_insert_2 || apply map_Forall_empty);
        eexists; (split; [reflexivity|lia]). }
    intros c alns Hc _. apply (map_Forall_lookup_1 _ _ _ _ Hall Hc).
  - assert (normalize_counts mixed_cluster_alns mixed_total_gene_length = OK mixed_abundance)
      as Hval by reflexivity.
    rewrite Hval in Hca. injection Hca as <-.
    split; [done|]. split; [done|].
    assert (0 < Qsum (cov <$> values mixed_abundance))%Q as Ht by reflexivity.
    split; [done|]. by apply Hpos.
Defined.

Lemma normalize_counts_coverage_sample :
  ∃ ca,
    normalize_counts sample_cluster_alns sample_total_gene_length = OK ca ∧
    dom ca = dom sample_cluster_alns ∧
    ∀ c alns, sample_cluster_alns !! c = Some alns →
      ∃ v, ca !! c = Some v ∧
        match alns with
        | [] => cov v = 0%Q
        | _ => ∃ lens len,
                 lengths alns lens ∧ sample_total_gene_length !! c = Some len ∧
                 cov v = (inject_Z (sum_Z lens) / inject_Z len)%Q
        end.
Proof.
  apply (normalize_counts_coverage sample_cluster_alns sample_total_gene_length).
  - unfold sample_cluster_alns. intros c alns a [<- <-]%lookup_singleton_Some Ha.
    apply elem_of_cons in Ha as [->|Ha]; [by eexists|].
    apply list_elem_of_singleton in Ha as ->. by eexists.
  - unfold sample_cluster_alns. intros c alns [<- <-]%lookup_singleton_Some _.
    exists 1500. split; [reflexivity|lia].
Defined.

Lemma assign_non_unique_single_weight_sample :
  ∃ l xs i a r',
    sample_unique_alns !! "C1" = Some l ∧ sample_unique_store !! l = Some xs ∧
    [r2_C1; r2_C2] !! i = Some a ∧ cluster_of a = OK "C1" ∧
    (∀ j b, (j < i)%nat → [r2_C1; r2_C2] !! j = Some b → cluster_of b ≠ OK "C1") ∧
    choose sample_unique_alns sample_unique_store ["C1"; "C2"] sample_rng = OK ("C1", r') ∧
    assign_non_unique [[r2_C1; r2_C2]] sample_unique_alns (sample_unique_store, sample_rng) =
      OK (sample_unique_alns, (<[l := xs ++ [a]]> sample_unique_store, r')).
Proof.
  apply (assign_non_unique_single_weight sample_unique_alns sample_unique_store sample_rng
           [r2_C1; r2_C2] ["C1"; "C2"] "C1").
  - simpl. lia.
  - reflexivity.
  - left.
  - intros c Hc. apply elem_of_cons in Hc as [->|Hc].
    + exists 1%nat. split; [reflexivity|]. split; [done|lia].
    + apply list_elem_of_singleton in Hc as ->.
      exists 0%nat. split; [reflexivity|]. split; [done|discriminate].
Defined.

Lemma assign_non_unique_shares_lists_sample :
  (∀ c, sample_unique_alns !! c = sample_unique_alns !! c) ∧
  grows sample_unique_store sample_total_store ∧
  ∀ aln, aln ∈ sample_best_hits → (1 < length aln)%nat →
    ∃ a c l xs ys,
      a ∈ aln ∧ cluster_of a = OK c ∧ sample_unique_alns !! c = Some l ∧
      sample_unique_store !! l = Some xs ∧ sample_total_store !! l = Some (xs ++ ys) ∧
      a ∈ ys.
Proof.
  apply (assign_non_unique_shares_lists sample_best_hits sample_unique_alns
           sample_unique_alns sample_unique_store sample_total_store sample_rng
           sample_rng_after).
  reflexivity.
Defined.

(** C1 on the code.  With two tied reads and no unique read, the counts
    read for the second read are no longer those left by the
    classification: the record appended for the first read is counted. *)
Lemma weights_follow_reassignment :
  find_best_hits decimal_float sample_cutoffs tied_blastout = OK tied_best_hits ∧
  assign_unique ["C1"; "C2"] tied_best_hits [] = OK (tied_unique_alns, [[]; []]) ∧
  weights tied_unique_alns [[]; []] ["C1"; "C2"] = OK [0; 0]%nat ∧
  reassign tied_unique_alns (copy tied_unique_alns) [r5_C1; r5_C2] ([[]; []], sample_rng) =
    OK ([[]; [r5_C2]], tied_rng_after) ∧
  weights tied_unique_alns [[]; [r5_C2]] ["C1"; "C2"] = OK [0; 1]%nat ∧
  assign_non_unique tied_best_hits tied_unique_alns ([[]; []], sample_rng) =
    OK (tied_unique_alns,
        ([[]; [r5_C2; r2_C2]],
         {| py_random := py_random tied_rng_after;
            np_random := {| tape := tape (np_random sample_rng); pos := 1 |} |})).
Proof. repeat split; reflexivity. Qed.

(** C8 on the code.  [r2] is tied between [C1], which has the unique read
    [r1], and [C2], which has none: its weights after the classification
    are one and zero.  The ambiguous read [r6] is reassigned before it, to
    [C2], and its record is counted: [r2] is drawn with the weights one and
    one, and with this state of the random sources it goes to [C2]. *)
Lemma single_weight_follows_reassignment :
  find_best_hits decimal_float sample_cutoffs mixed_blastout = OK mixed_best_hits ∧
  assign_unique sample_cluster_ids mixed_best_hits [] =
    OK (sample_unique_alns, sample_unique_store) ∧
  weights sample_unique_alns sample_unique_store ["C1"; "C2"] = OK [1; 0]%nat ∧
  reassign sample_unique_alns (copy sample_unique_alns) [r6_C2; r6_C3]
      (sample_unique_store, mixed_rng) =
    OK ([[r1_C1]; [r6_C2]; []], mixed_rng_between) ∧
  weights sample_unique_alns [[r1_C1]; [r6_C2]; []] ["C1"; "C2"] = OK [1; 1]%nat ∧
  assign_non_unique mixed_best_hits sample_unique_alns (sample_unique_store, mixed_rng) =
    OK (sample_unique_alns, ([[r1_C1]; [r6_C2; r2_C2]; []], mixed_rng_after)).
Proof. repeat split; reflexivity. Qed.

(** The round trip of C9 on a table of three clusters, written with
    Python 2's [str] and read with a reader of decimals. *)
Lemma read_write_abundance_sample :
  read_abundance decimal_float "profile"
      (Some (write_abundance float_str written_abundance)) =
    Returns (read_back decimal_float float_str <$> written_abundance) ∧
  (read_back decimal_float float_str <$> written_abundance = exact <$> written_abundance ↔
   ∀ c v, written_abundance !! c = Some v →
     decimal_float (float_str (cov v)) = Some (cov v) ∧
     decimal_float (float_str (rel_abun v)) = Some (rel_abun v)).
Proof.
  apply (read_write_abundance decimal_float float_str "profile" written_abundance).
  - apply map_Forall_lookup.
    repeat (apply map_Forall_insert_2 || apply map_Forall_empty);
      unfold token; repeat split; vm_compute; (discriminate || exact I).
  - apply map_Forall_lookup.
    repeat (apply map_Forall_insert_2 || apply map_Forall_empty); split; by eexists.
Defined.

(** C9 as it is stated fails with Python 2's [str], which keeps twelve
    significant digits: the coverage [100/1500] of [C1] is written as
    [0.0666666666667] and read back as that decimal, which is another
    number. *)
Lemma read_write_abundance_rounds :
  sample_abundance !! "C1" = Some {| cov := 100 # 1500; rel_abun := 150000 # 150000 |} ∧
  write_abundance float_str sample_abundance =
    [header; join tab ["C1"; "0.0666666666667"; "1.0"] +:+ newline] ∧
  read_abundance decimal_float "profile" (Some (write_abundance float_str sample_abundance)) =
    Returns {[ "C1" := {| profile_cov := Some (666666666667 # 10000000000000);
                          profile_rel_abun := Some (10 # 10) |} ]} ∧
  ¬ (666666666667 # 10000000000000 == 100 # 1500)%Q.
Proof.
  split; [reflexivity|]. split; [reflexivity|]. split; [reflexivity|].
  vm_compute. discriminate.
Qed.
